(** * msch: the schematic container codec

    A shallow embedding of [src/src/Schematic.ts] (the [Schematic] class:
    [read], [write], [getBlockMap], [sortTiles], [unsortTiles],
    [getTileAt], [setTileAt]) and of [src/classes/BlockConfig.ts], with
    the byte cursor, coordinate packing and the platform services the
    class calls. *)

From Stdlib Require Import ZArith Lia List Bool.
From Stdlib Require Import Strings.String Strings.Ascii Strings.Byte.
From stdpp Require Import base tactics option list.

Import ListNotations.
Local Open Scope Z_scope.

(** ** Outcomes of a JavaScript computation

    A call either produces a value, returns one of the descriptive error
    strings of [Schematic.read], or throws. *)

(** The descriptive strings [Schematic.read] returns, by template; the
    arguments are the interpolated values. The last template is also the
    message [sortTiles] passes to [fail]. *)
Inductive error : Type :=
  | NotSchematic                          (* `Not a schematic file (header bytes did not match)` *)
  | UnknownVersion (v : Z)                (* `Unknown schematic version ${version}` *)
  | TooLarge                              (* "Schematic is too large, maximum size is 128x128." *)
  | TooManyTiles (bound n : Z)            (* `Schematic contains too many tiles: ...` *)
  | InvalidRotation (r : Z)               (* `Invalid rotation ${rotation}, ...` *)
  | InvalidPosition (x y w h : Z).        (* `Invalid position (${x},${y}): out of bounds ...` *)

(** What a JavaScript call can throw here. *)
Inductive exn : Type :=
  | BufferOutOfBounds       (* the byte cursor read past the end *)
  | ZlibError               (* zlib.inflateSync on a corrupt stream *)
  | TypeError               (* property access on undefined *)
  | RangeError              (* new Array(n) with an invalid length *)
  | ConfigError (tag : Z)   (* TypeIO.readObject on an unknown tag *)
  | Failure (e : error).    (* utils.fail(message) *)

Inductive res (A : Type) : Type :=
  | Ok (a : A)
  | Err (e : error)
  | Thrown (x : exn).
Arguments Ok {A} a.
Arguments Err {A} e.
Arguments Thrown {A} x.

#[global] Instance res_ret : MRet res := fun A a => Ok a.
#[global] Instance res_bind : MBind res := fun A B k m =>
  match m with
  | Ok a => k a
  | Err e => Err e
  | Thrown x => Thrown x
  end.

(** ** Bytes and fixed-width integers *)

Definition Z_of_byte (b : byte) : Z := Z.of_N (Byte.to_N b).

(** The low eight bits of [v], as a byte. *)
Definition byte_of_Z (v : Z) : byte :=
  match Byte.of_N (Z.to_N (v mod 256)) with
  | Some b => b
  | None => x00
  end.

(** Reinterpret a [w]-bit unsigned value as two's complement. *)
Definition to_signed (w : Z) (u : Z) : Z :=
  if u <? 2 ^ (w - 1) then u else u - 2 ^ w.

(** Big-endian value of a byte sequence, continuing from [acc]. *)
Definition be_decode (bs : list byte) (acc : Z) : Z :=
  fold_left (fun a b => a * 256 + Z_of_byte b) bs acc.

(** The [n] low bytes of [v], most significant first. *)
Fixpoint be_encode (n : nat) (v : Z) : list byte :=
  match n with
  | O => []
  | S k => byte_of_Z (v / 256 ^ Z.of_nat k) :: be_encode k v
  end.

(** ** The byte cursor *)

(** Modelled from the spec: [SmartBuffer] (imported from
    [./SmartBuffer.js], not among the sources). Per section 4.1 it is a
    position-tracked cursor with big-endian integers and text prefixed by
    its 16-bit byte length; reading past the end fails. A read cursor is
    represented by the bytes not yet consumed; a written buffer by the
    bytes appended so far. Text is identified with its UTF-8 bytes. A
    write keeps the low bits of its argument: values outside the field's
    range are outside the model, and every statement about encoded data
    carries the range as a hypothesis. *)
Module SmartBuffer.

Definition cursor := list byte.

Definition readBytes (n : nat) (c : cursor) : res (list byte * cursor) :=
  if (n <=? length c)%nat then Ok (take n c, drop n c)
  else Thrown BufferOutOfBounds.

Definition readUInt8 (c : cursor) : res (Z * cursor) :=
  '(bs, c') ← readBytes 1 c; Ok (be_decode bs 0, c').

Definition readInt8 (c : cursor) : res (Z * cursor) :=
  '(bs, c') ← readBytes 1 c; Ok (to_signed 8 (be_decode bs 0), c').

Definition readUInt16BE (c : cursor) : res (Z * cursor) :=
  '(bs, c') ← readBytes 2 c; Ok (be_decode bs 0, c').

Definition readInt32BE (c : cursor) : res (Z * cursor) :=
  '(bs, c') ← readBytes 4 c; Ok (to_signed 32 (be_decode bs 0), c').

Definition readUTF8 (c : cursor) : res (string * cursor) :=
  '(n, c1) ← readUInt16BE c;
  '(bs, c2) ← readBytes (Z.to_nat n) c1;
  Ok (string_of_list_byte bs, c2).

Definition writeUInt8 (v : Z) : list byte := be_encode 1 v.
Definition writeUInt16BE (v : Z) : list byte := be_encode 2 v.
Definition writeInt32BE (v : Z) : list byte := be_encode 4 v.
Definition writeUTF8 (s : string) : list byte :=
  let bs := list_byte_of_string s in
  writeUInt16BE (Z.of_nat (length bs)) ++ bs.

End SmartBuffer.


Import SmartBuffer.

(** ** Configuration values ([src/classes/BlockConfig.ts]) *)

(** [enum BlockConfigType]; [buildingbox] is a second name of [building]. *)
Inductive BlockConfigType : Type :=
  | Tnull | Tint | Tlong | Tfloat | Tstring | Tcontent | Tintarray | Tpoint
  | Tpointarray | Tboolean | Tdouble | Tbuilding | Tbytearray
  | Tbooleanarray | Tunit.

Definition tag_of (t : BlockConfigType) : Z :=
  match t with
  | Tnull => 0 | Tint => 1 | Tlong => 2 | Tfloat => 3 | Tstring => 4
  | Tcontent => 5 | Tintarray => 6 | Tpoint => 7 | Tpointarray => 8
  | Tboolean => 10 | Tdouble => 11 | Tbuilding => 12 | Tbytearray => 14
  | Tbooleanarray => 16 | Tunit => 17
  end.

Definition Point2 : Type := Z * Z.

(** [class BlockConfig]: a type with the value [BlockConfigMapping] gives
    it. A [float] or [double] value is carried as its IEEE bit pattern. *)
Inductive BlockConfig : Type :=
  | CNull
  | CInt (value : Z)
  | CLong (value : Z)
  | CFloat (bits : Z)
  | CString (value : option string)
  | CContent (type id : Z)
  | CIntArray (value : list Z)
  | CPoint (value : Point2)
  | CPointArray (value : list Point2)
  | CBoolean (value : bool)
  | CDouble (bits : Z)
  | CBuilding (value : Point2)
  | CByteArray (value : list Z)
  | CBooleanArray (value : list bool)
  | CUnit (value : Z).

Definition type_of (c : BlockConfig) : BlockConfigType :=
  match c with
  | CNull => Tnull | CInt _ => Tint | CLong _ => Tlong | CFloat _ => Tfloat
  | CString _ => Tstring | CContent _ _ => Tcontent
  | CIntArray _ => Tintarray | CPoint _ => Tpoint
  | CPointArray _ => Tpointarray | CBoolean _ => Tboolean
  | CDouble _ => Tdouble | CBuilding _ => Tbuilding
  | CByteArray _ => Tbytearray | CBooleanArray _ => Tbooleanarray
  | CUnit _ => Tunit
  end.

(** ** JavaScript values the class handles *)

Local Unset Elimination Schemes.

(** What [JSON.parse] can return. A number is kept as its literal text. *)
Inductive json : Type :=
  | JNull
  | JBool (b : bool)
  | JNumber (lit : string)
  | JString (s : string)
  | JArray (items : list json)
  | JObject (fields : list (string * json)).

Local Set Elimination Schemes.

Definition is_JString (j : json) : bool :=
  match j with JString _ => true | _ => false end.

(** [j] is an array whose elements are all strings. *)
Definition is_string_array (j : json) : bool :=
  match j with
  | JArray items => forallb is_JString items
  | _ => false
  end.

(** A [Record<string, string>]: the own properties in [Object.entries]
    order (insertion order, for keys that are not array indices). *)
Definition object : Type := list (string * string).

Definition obj_get (o : object) (k : string) : option string :=
  match find (fun p => String.eqb (fst p) k) o with
  | Some p => Some (snd p)
  | None => None
  end.

Fixpoint obj_put (o : object) (k v : string) : object :=
  match o with
  | [] => [(k, v)]
  | (k', v') :: rest =>
      if String.eqb k' k then (k', v) :: rest else (k', v') :: obj_put rest k v
  end.

(** [o[k] = v] on an ordinary object: assigning a string to ["__proto__"]
    goes to the prototype setter, which ignores it. *)
Definition obj_set (o : object) (k v : string) : object :=
  if String.eqb k "__proto__" then o else obj_put o k v.

(** A JavaScript array of [T | null]: the indexed elements ([None] is a
    hole, [null] or [undefined]) and the properties stored under negative
    keys, which are not elements. *)
Record jsarray (T : Type) : Type := mkArray {
  elems : list (option T);
  props : list (Z * T)
}.
Arguments mkArray {T} elems props.
Arguments elems {T} j.
Arguments props {T} j.

Definition arr_get {T} (a : jsarray T) (i : Z) : option T :=
  if i <? 0 then
    match find (fun p => fst p =? i) (props a) with
    | Some p => Some (snd p)
    | None => None
    end
  else
    match elems a !! Z.to_nat i with
    | Some c => c
    | None => None
    end.

(** [a[i] = v]: past the end the array grows, the gap being holes. *)
Definition arr_set {T} (a : jsarray T) (i : Z) (v : T) : jsarray T :=
  if i <? 0 then mkArray (elems a) ((i, v) :: props a)
  else
    let n := Z.to_nat i in
    if (n <? length (elems a))%nat
    then mkArray (<[n := Some v]> (elems a)) (props a)
    else mkArray (elems a ++ replicate (n - length (elems a)) None ++ [Some v])
                 (props a).

(** A [Map<string, number>]: entries in insertion order. *)
Definition Map_get (m : list (string * Z)) (k : string) : option Z :=
  match find (fun p => String.eqb (fst p) k) m with
  | Some p => Some (snd p)
  | None => None
  end.

Fixpoint Map_set (m : list (string * Z)) (k : string) (v : Z) : list (string * Z) :=
  match m with
  | [] => [(k, v)]
  | (k', v') :: rest =>
      if String.eqb k' k then (k', v) :: rest else (k', v') :: Map_set rest k v
  end.

(** ['m','s','c','h'].map(char => char.charCodeAt(0)) *)
Definition headerBytes : list Z :=
  map (fun c => Z.of_N (Ascii.N_of_ascii c)) ["m"; "s"; "c"; "h"]%char.

Section Model.

(** Whatever a [Tile] holds besides the fields [Schematic] touches (its
    decompressed code and links). *)
Context {Aux : Type}.

(** [class Tile] ([./Tile.js] is not among the sources): the fields
    [Schematic.ts] reads and writes. *)
Record Tile : Type := mkTile {
  name : string;
  x : Z;
  y : Z;
  config : BlockConfig;
  rotation : Z;
  aux : Aux
}.

(** The services [Schematic.ts] imports and whose code is not among the
    sources: the [Tile] class, [zlib], [Point2], [TypeIO] and
    [JSON.parse]. *)
Record Platform : Type := mkPlatform {
  (** state of a [Tile] fresh from its constructor *)
  aux_init : Aux;
  (** [tile.readConfig()] and [tile.writeConfig()], on the tile's state *)
  readConfig : Tile -> Tile;
  writeConfig : Tile -> Tile;
  (** [zlib.inflateSync]; [None] when it throws *)
  inflateSync : list byte -> option (list byte);
  deflateSync : list byte -> list byte;
  (** [Point2.pack] and [Point2.unpack] *)
  pack : Z -> Z -> Z;
  unpack : Z -> Point2;
  (** [TypeIO.readObject] on a cursor, [TypeIO.writeObject] as the bytes
      it appends *)
  readObject : cursor -> res (BlockConfig * cursor);
  writeObject : BlockConfig -> list byte;
  (** [JSON.parse]; [None] when it throws a [SyntaxError] *)
  JSON_parse : string -> option json
}.

Variable P : Platform.

(** *** The store of [Tile] objects

    Tiles are mutable objects held by reference; a reference is an
    address in the store. *)
Definition ref : Type := nat.

Record heap : Type := mkHeap {
  deref : ref -> Tile;
  next : ref
}.

(** [new Tile(...)]: a fresh address. *)
Definition alloc (t : Tile) (h : heap) : ref * heap :=
  (next h,
   mkHeap (fun r => if (r =? next h)%nat then t else deref h r) (S (next h))).

(** In-place mutation of the tile at [r]. *)
Definition update (r : ref) (f : Tile -> Tile) (h : heap) : heap :=
  mkHeap (fun r' => if (r' =? r)%nat then f (deref h r) else deref h r')
         (next h).

Definition Row : Type := jsarray ref.

Record Schematic : Type := mkSchematic {
  height : Z;
  width : Z;
  version : Z;
  tags : object;
  (** declared [string[]]; holds whatever it was given *)
  labels : json;
  (** [tiles[y][x]] *)
  tiles : list Row
}.

(** [this.tiles[y]]: [None] is [undefined]. *)
Definition row_at (g : list Row) (y : Z) : option Row :=
  if y <? 0 then None else g !! Z.to_nat y.

(** [tiles.flat().filter(Boolean)]: the elements of the rows in order,
    without the empty ones. *)
Definition unsortTiles (g : list Row) : list ref :=
  omap id (concat (map elems g)).

(** The array [Array.from({length: height}, () => new Array(width).fill(null))]. *)
Definition blank_grid (width height : Z) : res (list Row) :=
  if (0 <? height) && ((width <? 0) || (2 ^ 32 <=? width))
  then Thrown RangeError
  else Ok (replicate (Z.to_nat height)
                     (mkArray (replicate (Z.to_nat width) None) [])).

Definition in_bounds (width height x y : Z) : bool :=
  (0 <=? x) && (x <? width) && (0 <=? y) && (y <? height).

(** The loop of [sortTiles]; a [for...of] over an array visits its holes
    as [undefined], and [tile.x] then throws. [fail] (from [./utils.js],
    not among the sources) throws its message: section 7 of the
    specification has this condition fatal. *)
Fixpoint sortTiles_loop (h : heap) (width height : Z)
    (tiles : list (option ref)) (sortedTiles : list Row) : res (list Row) :=
  match tiles with
  | [] => Ok sortedTiles
  | None :: _ => Thrown TypeError
  | Some r :: rest =>
      let tile := deref h r in
      if negb (in_bounds width height (x tile) (y tile))
      then Thrown (Failure (InvalidPosition (x tile) (y tile) width height))
      else
        match row_at sortedTiles (y tile) with
        | None => Thrown TypeError
        | Some row =>
            sortTiles_loop h width height rest
              (<[Z.to_nat (y tile) := arr_set row (x tile) r]> sortedTiles)
        end
  end.

Definition sortTiles (h : heap) (tiles : list (option ref))
    (width height : Z) : res (list Row) :=
  sortedTiles ← blank_grid width height;
  sortTiles_loop h width height tiles sortedTiles.

(** [readConfigs] and [writeConfigs]: the nested [for...of] visits the
    elements row by row; [tile?.f()] does nothing on an empty one. *)
Definition for_each_tile (f : Tile -> Tile) (g : list Row) (h : heap) : heap :=
  fold_left (fun h r => update r f h) (unsortTiles g) h.

Definition readConfigs (s : Schematic) (h : heap) : heap :=
  for_each_tile (readConfig P) (tiles s) h.

Definition writeConfigs (s : Schematic) (h : heap) : heap :=
  for_each_tile (writeConfig P) (tiles s) h.

(** [new Schematic(height, width, version, tags, labels, tiles)] *)
Definition new_Schematic (height width version : Z) (tags : object)
    (labels : json) (tiles : list (option ref)) (h : heap)
    : res (Schematic * heap) :=
  grid ← sortTiles h tiles width height;
  let s := mkSchematic height width version tags labels grid in
  Ok (s, readConfigs s h).

(** [Schematic.blank] *)
Definition blank (h : heap) : res (Schematic * heap) :=
  new_Schematic 0 0 1 [] (JArray []) [] h.

(** The [map] callback of [getBlockMap], run over the tiles with the
    [Map] it mutates. *)
Fixpoint getBlockMap_loop (h : heap) (unsortedTiles : list ref)
    (mapping : list (string * Z)) : list (string * Z) * list (ref * Z) :=
  match unsortedTiles with
  | [] => (mapping, [])
  | t :: rest =>
      let n := name (deref h t) in
      match Map_get mapping n with
      | Some i =>
          let '(m, others) := getBlockMap_loop h rest mapping in
          (m, (t, i) :: others)
      | None =>
          let i := Z.of_nat (length mapping) in
          let '(m, others) := getBlockMap_loop h rest (Map_set mapping n i) in
          (m, (t, i) :: others)
      end
  end.

Definition getBlockMap (h : heap) (unsortedTiles : list ref)
    : list string * list (ref * Z) :=
  let '(mapping, otherMapping) := getBlockMap_loop h unsortedTiles [] in
  (map fst mapping, otherMapping).

(** *** [Schematic.read] *)

(** The loop over [Schematic.headerBytes]. *)
Fixpoint check_header (chars : list Z) (rawData : cursor) : res cursor :=
  match chars with
  | [] => Ok rawData
  | char :: rest =>
      '(b, rawData) ← readUInt8 rawData;
      if negb (b =? char) then Err NotSchematic else check_header rest rawData
  end.

(** [tags[data.readUTF8()] = data.readUTF8()], [n] times: the key is read
    first. *)
Fixpoint readTags (n : nat) (data : cursor) (tags : object)
    : res (object * cursor) :=
  match n with
  | O => Ok (tags, data)
  | S k =>
      '(key, data) ← readUTF8 data;
      '(value, data) ← readUTF8 data;
      readTags k data (obj_set tags key value)
  end.

(** [blocks[i] = data.readUTF8()] for [i] below [blocks.length]. *)
Fixpoint readBlocks (n : nat) (data : cursor) : res (list string * cursor) :=
  match n with
  | O => Ok ([], data)
  | S k =>
      '(b, data) ← readUTF8 data;
      '(bs, data) ← readBlocks k data;
      Ok (b :: bs, data)
  end.

(** [blocks[id]]: [None] is [undefined]. *)
Definition block_at (blocks : list string) (id : Z) : option string :=
  if id <? 0 then None else blocks !! Z.to_nat id.

(** [!block || block == "air"] *)
Definition no_block (block : option string) : bool :=
  match block with
  | None => true
  | Some b => String.eqb b "" || String.eqb b "air"
  end.

(** [try { labels = JSON.parse(tags["labels"]) } catch { labels = [] }];
    [JSON.parse] reads [undefined] as the text ["undefined"]. *)
Definition parse_labels (tags : object) : json :=
  let text := match obj_get tags "labels" with
              | Some v => v
              | None => "undefined"%string
              end in
  match JSON_parse P text with
  | Some j => j
  | None => JArray []
  end.

(** What one turn of the tile loop reads: the block index, the unpacked
    coordinate, the configuration and the rotation. *)
Definition read_record (data : cursor)
    : res ((Z * Z * Z * BlockConfig * Z) * cursor) :=
  '(id, data) ← readInt8 data;
  '(p, data) ← readInt32BE data;
  let '(x, y) := unpack P p in
  '(config, data) ← readObject P data;
  '(rotation, data) ← readInt8 data;
  Ok ((id, x, y, config, rotation), data).

(** The tile loop: the array [tiles] with its holes (records that
    [continue]), and the store with the tiles constructed. *)
Fixpoint readTiles (blocks : list string) (width height : Z) (n : nat)
    (data : cursor) (h : heap) : res (list (option ref) * heap) :=
  match n with
  | O => Ok ([], h)
  | S k =>
      '((id, x, y, config, rotation), data) ← read_record data;
      let block := block_at blocks id in
      if negb (existsb (Z.eqb rotation) [0; 1; 2; 3])
      then Err (InvalidRotation rotation)
      else if negb ((x <? width) && (y <? height))
      then Err (InvalidPosition x y width height)
      else
        match (if no_block block then None else block) with
        | None =>
            '(tiles, h) ← readTiles blocks width height k data h;
            Ok (None :: tiles, h)
        | Some b =>
            let '(r, h) := alloc (mkTile b x y config rotation (aux_init P)) h in
            '(tiles, h) ← readTiles blocks width height k data h;
            Ok (Some r :: tiles, h)
        end
  end.

(** The inflated part of [read] up to the tile count: width, height,
    tags, labels, block names and the count. *)
Definition read_preamble (data : cursor)
    : res ((Z * Z * object * json * list string * Z) * cursor) :=
  '(width, data) ← readUInt16BE data;
  '(height, data) ← readUInt16BE data;
  if (128 <? width) || (128 <? height) then Err TooLarge else
  '(tagcount, data) ← readUInt8 data;
  '(tags, data) ← readTags (Z.to_nat tagcount) data [];
  let labels := parse_labels tags in
  '(nblocks, data) ← readUInt8 data;
  '(blocks, data) ← readBlocks (Z.to_nat nblocks) data;
  '(numTiles, data) ← readInt32BE data;
  Ok ((width, height, tags, labels, blocks, numTiles), data).

(** The inflated part of [read]; [new Array(numTiles)] throws on a
    negative length. *)
Definition read_payload (version : Z) (data : cursor) (h : heap)
    : res (Schematic * heap) :=
  '((width, height, tags, labels, blocks, numTiles), data) ← read_preamble data;
  if numTiles <? 0 then Thrown RangeError else
  if width * height <? numTiles
  then Err (TooManyTiles (width * height) numTiles) else
  '(tiles, h) ← readTiles blocks width height (Z.to_nat numTiles) data h;
  new_Schematic height width version tags labels tiles h.

Definition read (inputData : list byte) (h : heap) : res (Schematic * heap) :=
  rawData ← check_header headerBytes inputData;
  '(version, _) ← readInt8 rawData;
  if negb (version =? 1) then Err (UnknownVersion version) else
  match inflateSync P (drop 5 inputData) with
  | None => Thrown ZlibError
  | Some data => read_payload version data h
  end.

(** *** [Schematic.write] *)

(** One tile record. *)
Definition write_tile (h : heap) (entry : ref * Z) : list byte :=
  let '(r, i) := entry in
  let tile := deref h r in
  writeUInt8 i
  ++ writeInt32BE (pack P (x tile) (y tile))
  ++ writeObject P (config tile)
  ++ writeUInt8 (rotation tile).

(** The buffer [compressableData] at the end of [write]. *)
Definition write_payload (s : Schematic) (h : heap) : list byte :=
  let entries := tags s in
  let unsortedTiles := unsortTiles (tiles s) in
  let '(allNames, mapping) := getBlockMap h unsortedTiles in
  writeUInt16BE (width s)
  ++ writeUInt16BE (height s)
  ++ writeUInt8 (Z.of_nat (length entries))
  ++ flat_map (fun '(key, value) => writeUTF8 key ++ writeUTF8 value) entries
  ++ writeUInt8 (Z.of_nat (length allNames))
  ++ flat_map writeUTF8 allNames
  ++ writeInt32BE (Z.of_nat (length mapping))
  ++ flat_map (write_tile h) mapping.

(** The bytes of [write()], and the store after [writeConfigs]. *)
Definition write (s : Schematic) (h : heap) : list byte * heap :=
  let h := writeConfigs s h in
  (flat_map writeUInt8 headerBytes
   ++ writeUInt8 (version s)
   ++ deflateSync P (write_payload s h),
   h).

(** *** Tile accessors *)

(** [this.tiles[y][x]]; on a missing row the property access throws. *)
Definition getTileAt (s : Schematic) (x y : Z) : res (option ref) :=
  match row_at (tiles s) y with
  | None => Thrown TypeError
  | Some row => Ok (arr_get row x)
  end.

Definition set_pos (x' y' : Z) (t : Tile) : Tile :=
  mkTile (name t) x' y' (config t) (rotation t) (aux t).

(** [setTileAt]: the store after the call (the two assignments to the
    tile come first and stay when the third statement throws), and the
    schematic or the fault. *)
Definition setTileAt (s : Schematic) (x y : Z) (tile : ref) (h : heap)
    : res Schematic * heap :=
  let h := update tile (set_pos x y) h in
  match row_at (tiles s) y with
  | None => (Thrown TypeError, h)
  | Some row =>
      (Ok (mkSchematic (height s) (width s) (version s) (tags s) (labels s)
             (<[Z.to_nat y := arr_set row x tile]> (tiles s))),
       h)
  end.

End Model.

Arguments Tile : clear implicits.
Arguments Platform : clear implicits.
Arguments heap : clear implicits.
Arguments Schematic : clear implicits.

(** ** Coordinate packing *)

(** Modelled from the spec: [Point2.pack] and [Point2.unpack]
    ([./Point2.js] is not among the sources). Sections 3 and 4.2 ask for
    a lossless packing of a coordinate pair into one integer, 16 bits per
    axis; here [x] takes the high half, [y] the low half, each half in
    two's complement, so that the packed value is the 32-bit integer
    [(x << 16) | (y & 0xFFFF)]. *)
Module Point2.

Definition pack (x y : Z) : Z :=
  to_signed 32 (Z.lor (Z.shiftl x 16) (Z.land y 65535) mod 2 ^ 32).

Definition unpack (pos : Z) : Z * Z :=
  (to_signed 16 (Z.land (Z.shiftr pos 16) 65535),
   to_signed 16 (Z.land pos 65535)).

(** The coordinates the packing supports. *)
Definition supported (x y : Z) : Prop :=
  - 2 ^ 15 <= x < 2 ^ 15 /\ - 2 ^ 15 <= y < 2 ^ 15.

End Point2.

(** ** A reference platform

    Concrete services on which the codec can be run: a zlib codec, a
    configuration codec, a JSON reader and tiles without deferred state. *)

(** The zlib container restricted to stored (uncompressed) deflate
    blocks, which is what compression level 0 emits: a two-byte header,
    blocks of at most 65535 bytes, and the Adler-32 checksum. The reader
    rejects every other stream. *)
Module Zlib.

Definition adler32 (data : list byte) : Z :=
  let '(a, b) :=
    fold_left (fun '(a, b) c =>
                 let a' := (a + Z_of_byte c) mod 65521 in
                 (a', (b + a') mod 65521))
              data (1, 0) in
  b * 65536 + a.

Definition le16 (v : Z) : list byte := [byte_of_Z v; byte_of_Z (v / 256)].

Definition stored_block (final : bool) (chunk : list byte) : list byte :=
  let len := Z.of_nat (length chunk) in
  byte_of_Z (if final then 1 else 0) :: le16 len ++ le16 (65535 - len) ++ chunk.

Fixpoint stored_blocks (fuel : nat) (data : list byte) : list byte :=
  match fuel with
  | O => stored_block true data
  | S k =>
      if Z.of_nat (length data) <=? 65535 then stored_block true data
      else stored_block false (take (Z.to_nat 65535) data)
           ++ stored_blocks k (drop (Z.to_nat 65535) data)
  end.

Definition deflateSync (data : list byte) : list byte :=
  [x78; x01] ++ stored_blocks (length data) data ++ be_encode 4 (adler32 data).

Fixpoint inflate_blocks (fuel : nat) (input out : list byte)
    : option (list byte * list byte) :=
  match fuel with
  | O => None
  | S k =>
      match input with
      | hdr :: l0 :: l1 :: n0 :: n1 :: rest =>
          let len := Z_of_byte l0 + 256 * Z_of_byte l1 in
          let nlen := Z_of_byte n0 + 256 * Z_of_byte n1 in
          if (Z.land (Z_of_byte hdr) 6 =? 0) && (len + nlen =? 65535)
             && (Z.to_nat len <=? length rest)%nat
          then
            let out := out ++ take (Z.to_nat len) rest in
            let rest := drop (Z.to_nat len) rest in
            if Z.odd (Z_of_byte hdr) then Some (out, rest)
            else inflate_blocks k rest out
          else None
      | _ => None
      end
  end.

Definition inflateSync (input : list byte) : option (list byte) :=
  match input with
  | cmf :: flg :: rest =>
      let c := Z_of_byte cmf in
      let f := Z_of_byte flg in
      if (Z.land c 15 =? 8) && (c / 16 <=? 7) && ((c * 256 + f) mod 31 =? 0)
         && (Z.land f 32 =? 0)
      then
        match inflate_blocks (length rest) rest [] with
        | Some (out, trailer) =>
            if (4 <=? length trailer)%nat
               && (be_decode (take 4 trailer) 0 =? adler32 out)
            then Some out else None
        | None => None
        end
      else None
  | _ => None
  end.

End Zlib.

(** Modelled from the spec: [TypeIO.readObject] and [TypeIO.writeObject]
    ([./TypeIO.js] is not among the sources). One tag byte, then the
    payload the table of section 3 gives for the tag; an array is its
    count and then its elements; a string carries a presence byte. The
    widths the spec leaves open are those of the reference format. *)
Module TypeIO.

Definition write_point (p : Point2) : list byte :=
  writeInt32BE (Point2.pack (fst p) (snd p)).

Definition write_bool (b : bool) : list byte :=
  writeUInt8 (if b then 1 else 0).

Definition writeObject (c : BlockConfig) : list byte :=
  writeUInt8 (tag_of (type_of c)) ++
  match c with
  | CNull => []
  | CInt v => writeInt32BE v
  | CLong v => be_encode 8 v
  | CFloat bits => be_encode 4 bits
  | CString None => writeUInt8 0
  | CString (Some s) => writeUInt8 1 ++ writeUTF8 s
  | CContent t i => writeUInt8 t ++ writeUInt16BE i
  | CIntArray l => writeUInt16BE (Z.of_nat (length l)) ++ flat_map writeInt32BE l
  | CPoint p => write_point p
  | CPointArray l => writeUInt8 (Z.of_nat (length l)) ++ flat_map write_point l
  | CBoolean b => write_bool b
  | CDouble bits => be_encode 8 bits
  | CBuilding p => write_point p
  | CByteArray l => writeInt32BE (Z.of_nat (length l)) ++ flat_map writeUInt8 l
  | CBooleanArray l => writeInt32BE (Z.of_nat (length l)) ++ flat_map write_bool l
  | CUnit v => writeInt32BE v
  end.

Fixpoint read_many {A} (item : cursor -> res (A * cursor)) (n : nat)
    (c : cursor) : res (list A * cursor) :=
  match n with
  | O => Ok ([], c)
  | S k =>
      '(a, c) ← item c;
      '(l, c) ← read_many item k c;
      Ok (a :: l, c)
  end.

Definition read_point (c : cursor) : res (Point2 * cursor) :=
  '(p, c) ← readInt32BE c; Ok (Point2.unpack p, c).

Definition read_bool (c : cursor) : res (bool * cursor) :=
  '(b, c) ← readUInt8 c; Ok (negb (b =? 0), c).

Definition read_wide (c : cursor) : res (Z * cursor) :=
  '(bs, c) ← readBytes 8 c; Ok (to_signed 64 (be_decode bs 0), c).

Definition readObject (c : cursor) : res (BlockConfig * cursor) :=
  '(tag, c) ← readUInt8 c;
  match tag with
  | 0 => Ok (CNull, c)
  | 1 => '(v, c) ← readInt32BE c; Ok (CInt v, c)
  | 2 => '(v, c) ← read_wide c; Ok (CLong v, c)
  | 3 => '(bs, c) ← readBytes 4 c; Ok (CFloat (be_decode bs 0), c)
  | 4 => '(present, c) ← readUInt8 c;
         if present =? 0 then Ok (CString None, c)
         else '(s, c) ← readUTF8 c; Ok (CString (Some s), c)
  | 5 => '(t, c) ← readUInt8 c; '(i, c) ← readUInt16BE c; Ok (CContent t i, c)
  | 6 => '(n, c) ← readUInt16BE c;
         '(l, c) ← read_many readInt32BE (Z.to_nat n) c; Ok (CIntArray l, c)
  | 7 => '(p, c) ← read_point c; Ok (CPoint p, c)
  | 8 => '(n, c) ← readUInt8 c;
         '(l, c) ← read_many read_point (Z.to_nat n) c; Ok (CPointArray l, c)
  | 10 => '(b, c) ← read_bool c; Ok (CBoolean b, c)
  | 11 => '(bs, c) ← readBytes 8 c; Ok (CDouble (be_decode bs 0), c)
  | 12 => '(p, c) ← read_point c; Ok (CBuilding p, c)
  | 14 => '(n, c) ← readInt32BE c;
          '(l, c) ← read_many readUInt8 (Z.to_nat n) c; Ok (CByteArray l, c)
  | 16 => '(n, c) ← readInt32BE c;
          '(l, c) ← read_many read_bool (Z.to_nat n) c; Ok (CBooleanArray l, c)
  | 17 => '(v, c) ← readInt32BE c; Ok (CUnit v, c)
  | _ => Thrown (ConfigError tag)
  end.

End TypeIO.

(** A reader for a fragment of JSON: the literals, integers, strings
    without escapes, and arrays of those, without white space. Any other
    text is refused. *)
Module JSON.

Definition dquote : ascii := ascii_of_nat 34.
Definition backslash : ascii := ascii_of_nat 92.

(** The characters up to the closing quote, and what follows it. *)
Fixpoint string_body (s : string) : option (string * string) :=
  match s with
  | EmptyString => None
  | String c rest =>
      if Ascii.eqb c dquote then Some (EmptyString, rest)
      else if Ascii.eqb c backslash || (nat_of_ascii c <? 32)%nat then None
      else match string_body rest with
           | Some (body, rest') => Some (String c body, rest')
           | None => None
           end
  end.

Definition is_digit (c : ascii) : bool :=
  (48 <=? nat_of_ascii c)%nat && (nat_of_ascii c <=? 57)%nat.

(** The longest prefix of digits, and what follows it. *)
Fixpoint digits (s : string) : string * string :=
  match s with
  | String c rest =>
      if is_digit c then let '(d, r) := digits rest in (String c d, r)
      else (EmptyString, s)
  | EmptyString => (EmptyString, EmptyString)
  end.

Definition integer (s : string) : option (json * string) :=
  let '(sign, s1) := match s with
                     | String "-" r => ("-"%string, r)
                     | _ => (EmptyString, s)
                     end in
  match digits s1 with
  | (EmptyString, _) => None
  | (String "0" (String _ _), _) => None
  | (d, r) => Some (JNumber (sign ++ d), r)
  end.

Definition scalar (s : string) : option (json * string) :=
  match s with
  | String "n" (String "u" (String "l" (String "l" r))) => Some (JNull, r)
  | String "t" (String "r" (String "u" (String "e" r))) => Some (JBool true, r)
  | String "f" (String "a" (String "l" (String "s" (String "e" r)))) =>
      Some (JBool false, r)
  | String c r =>
      if Ascii.eqb c dquote then
        match string_body r with
        | Some (body, r') => Some (JString body, r')
        | None => None
        end
      else integer s
  | EmptyString => None
  end.

(** The elements after an opening bracket, up to the closing one. *)
Fixpoint items (fuel : nat) (s : string) : option (list json * string) :=
  match fuel with
  | O => None
  | S k =>
      match scalar s with
      | Some (j, String "," r) =>
          match items k r with
          | Some (l, r') => Some (j :: l, r')
          | None => None
          end
      | Some (j, String "]" r) => Some ([j], r)
      | _ => None
      end
  end.

Definition value (s : string) : option (json * string) :=
  match s with
  | String "[" (String "]" r) => Some (JArray [], r)
  | String "[" r =>
      match items (String.length r) r with
      | Some (l, r') => Some (JArray l, r')
      | None => None
      end
  | _ => scalar s
  end.

Definition parse (s : string) : option json :=
  match value s with
  | Some (j, EmptyString) => Some j
  | _ => None
  end.

End JSON.

(** Tiles that keep nothing beyond their public fields, so that
    [readConfig] and [writeConfig] have nothing to do. *)
Definition reference : Platform unit :=
  mkPlatform tt id id Zlib.inflateSync Zlib.deflateSync
    Point2.pack Point2.unpack TypeIO.readObject TypeIO.writeObject JSON.parse.

(** A store with nothing allocated. *)
Definition empty_heap : heap unit :=
  mkHeap (fun _ => mkTile EmptyString 0 0 CNull 0 tt) O.

(** ** Vocabulary of the statements *)

(** The five bytes every version-1 file starts with. *)
Definition magic : list byte := flat_map writeUInt8 headerBytes ++ writeUInt8 1.

(** The byte length of a text. *)
Definition byte_length (s : string) : Z :=
  Z.of_nat (length (list_byte_of_string s)).

(** The 1 by 1 schematic without tiles. *)
Definition one_by_one : Schematic :=
  mkSchematic 1 1 1 [] (JArray []) [mkArray [None] []].

(** A store holding one copper wall at (0,0), at address 0. *)
Definition one_wall : heap unit :=
  snd (alloc (mkTile "copper-wall" 0 0 CNull 0 tt) empty_heap).

(** The inflated part of a 1 by 1 file without tags or block names that
    declares two tiles. *)
Definition overfull_payload : list byte :=
  writeUInt16BE 1 ++ writeUInt16BE 1 ++ writeUInt8 0 ++ writeUInt8 0
  ++ writeInt32BE 2.

(** The inflated part of a 1 by 1 file with one tile record, given the
    block name of the record and its packed position. *)
Definition single_tile_payload (block : string) (pos : Z) : list byte :=
  writeUInt16BE 1 ++ writeUInt16BE 1 ++ writeUInt8 0
  ++ writeUInt8 1 ++ writeUTF8 block
  ++ writeInt32BE 1
  ++ writeUInt8 0 ++ writeInt32BE pos ++ TypeIO.writeObject CNull
  ++ writeUInt8 0.

(** The inflated part of a 0 by 0 file whose only tag is [labels], with
    the given text, and which has no tiles. *)
Definition labels_payload (text : string) : list byte :=
  writeUInt16BE 0 ++ writeUInt16BE 0
  ++ writeUInt8 1 ++ writeUTF8 "labels" ++ writeUTF8 text
  ++ writeUInt8 0 ++ writeInt32BE 0.

(** ** The encoder in the words of the specification *)

(** The grid has [height] rows of [width] cells. *)
Definition grid_shaped (s : Schematic) : bool :=
  (length (tiles s) =? Z.to_nat (height s))%nat
  && forallb (fun row : Row => (length (elems row) =? Z.to_nat (width s))%nat)
             (tiles s).

(** The cell in column [xi] of row [yi]. *)
Definition cell_at (g : list Row) (xi yi : nat) : option ref :=
  match g !! yi with
  | Some row => match elems row !! xi with Some c => c | None => None end
  | None => None
  end.


(** "Assign each distinct block name the next unused small integer id in
    first-appearance order": the table after the names are seen in
    order, the id of a name being its position in the table. *)
Fixpoint intern (names : list string) (table : list string) : list string :=
  match names with
  | [] => table
  | n :: rest =>
      if existsb (String.eqb n) table then intern rest table
      else intern rest (table ++ [n])
  end.

(** The position of [n] in [table], counted from [k]. *)
Fixpoint index_from (k : nat) (n : string) (table : list string) : option Z :=
  match table with
  | [] => None
  | m :: rest =>
      if String.eqb m n then Some (Z.of_nat k) else index_from (S k) n rest
  end.

(** A table with each name paired with its position, counted from [k]. *)
Fixpoint numbered_from (k : nat) (table : list string) : list (string * Z) :=
  match table with
  | [] => []
  | n :: rest => (n, Z.of_nat k) :: numbered_from (S k) rest
  end.


(** A 2 by 2 schematic: walls in the bottom row, a conveyor at (1,1). *)
Definition two_by_two : Schematic :=
  mkSchematic 2 2 1 [("name", "demo")%string] (JArray [])
    [mkArray [Some 0%nat; Some 1%nat] []; mkArray [None; Some 2%nat] []].

(** A store with the three tiles of [two_by_two]. *)
Definition three_tiles : heap unit :=
  mkHeap (fun r => match r with
                   | 0%nat => mkTile "copper-wall" 0 0 CNull 0 tt
                   | 1%nat => mkTile "copper-wall" 1 0 CNull 0 tt
                   | _ => mkTile "conveyor" 1 1 (CInt 7) 3 tt
                   end) 3%nat.

(** ** Vocabulary of the round trip *)




(** The tile at [r] stores the coordinates of cell [(xi, yi)]. *)
Definition at_cell {Aux} (h : heap Aux) (xi yi : nat) (r : ref) : bool :=
  (x (deref h r) =? Z.of_nat xi) && (y (deref h r) =? Z.of_nat yi).

(** The last tile of [rs] that stores the coordinates of cell
    [(xi, yi)], or [init] when there is none. *)
Definition placed {Aux} (h : heap Aux) (rs : list ref) (xi yi : nat)
    (init : option ref) : option ref :=
  fold_left (fun acc r => if at_cell h xi yi r then Some r else acc) rs init.

(** A valid tile in cell [(xi, yi)]: it stores the coordinates of its
    cell, its rotation is one of 0, 1, 2, 3, and it names a block (not
    the empty text and not ["air"], which mean no tile) in at most 65535
    bytes. *)
Definition tile_ok {Aux} (t : Tile Aux) (xi yi : nat) : bool :=
  (x t =? Z.of_nat xi) && (y t =? Z.of_nat yi)
  && (0 <=? rotation t) && (rotation t <=? 3)
  && negb (no_block (Some (name t)))
  && (byte_length (name t) <? 65536).

Definition tiles_valid {Aux} (h : heap Aux) (s : Schematic) : bool :=
  forallb (fun yi =>
    forallb (fun xi =>
      match cell_at (tiles s) xi yi with
      | Some r => tile_ok (deref h r) xi yi
      | None => true
      end) (seq 0 (Z.to_nat (width s))))
    (seq 0 (Z.to_nat (height s))).





(** A grid of [h'] rows of [w'] cells. *)
Definition shaped (w' h' : nat) (g : list Row) : Prop :=
  length g = h' /\ Forall (fun row : Row => length (elems row) = w') g.

(** Every tile in the grid stores the coordinates of its cell. *)
Definition cells_match {Aux} (h : heap Aux) (g : list Row) : Prop :=
  forall xi yi r, cell_at g xi yi = Some r -> at_cell h xi yi r = true.

(** ** Schematics at the limits of the format *)

(** A schematic 129 cells wide and without rows. *)
Definition too_wide : Schematic := mkSchematic 0 129 1 [] (JArray []) [].

(** A store holding one tile named ["air"] at (0,0), at address 0. *)
Definition one_air : heap unit :=
  snd (alloc (mkTile "air" 0 0 CNull 0 tt) empty_heap).

(** The 1 by 1 schematic holding the tile at address 0. *)
Definition one_tile : Schematic :=
  mkSchematic 1 1 1 [] (JArray []) [mkArray [Some 0%nat] []].

(** Two characters that differ from one number below 4096 to the next. *)
Definition name_of (r : nat) : string :=
  String (ascii_of_nat (48 + r / 64))
         (String (ascii_of_nat (48 + r mod 64)) EmptyString).

(** A store of tiles with pairwise distinct names, tile [r] in column
    [r mod 65] of row [r / 65]. *)
Definition distinct_names : heap unit :=
  mkHeap (fun r => mkTile (name_of r) (Z.of_nat (r mod 65)) (Z.of_nat (r / 65))
                          CNull 0 tt) 130%nat.

(** The 65 by 2 schematic holding the tiles at addresses 0 to 129. *)
Definition full_grid : Schematic :=
  mkSchematic 2 65 1 [] (JArray [])
    [mkArray (map Some (seq 0 65)) []; mkArray (map Some (seq 65 65)) []].

(** ** Files that [read] refuses *)

(** The four magic bytes. *)
Definition magic4 : list byte := flat_map writeUInt8 headerBytes.

(** The inflated part of a file that declares a grid 129 cells wide. *)
Definition wide_payload : list byte := writeUInt16BE 129 ++ writeUInt16BE 1.

(** The inflated part of a 1 by 1 file without tags or block names that
    declares [n] tiles and stops there. *)
Definition count_payload (n : Z) : list byte :=
  writeUInt16BE 1 ++ writeUInt16BE 1 ++ writeUInt8 0 ++ writeUInt8 0
  ++ writeInt32BE n.

(** The inflated part of a 1 by 1 file with one tile record, given the
    packed position and the rotation byte of the record. *)
Definition record_payload (pos rot : Z) : list byte :=
  writeUInt16BE 1 ++ writeUInt16BE 1 ++ writeUInt8 0
  ++ writeUInt8 1 ++ writeUTF8 "copper-wall"
  ++ writeInt32BE 1
  ++ writeUInt8 0 ++ writeInt32BE pos ++ TypeIO.writeObject CNull
  ++ writeUInt8 rot.

(** ** Vocabulary of the grid properties *)

(** No row of the grid has a property under a negative key. *)
Definition plain (g : list Row) : Prop :=
  Forall (fun row : Row => props row = []) g.

(** The tile at [r] is within a grid of the given size. *)
Definition inside {Aux} (h : heap Aux) (w hgt : Z) (r : ref) : Prop :=
  in_bounds w hgt (x (deref h r)) (y (deref h r)) = true.

(** The tiles at [r1] and [r2] store different coordinates. *)
Definition apart {Aux} (h : heap Aux) (r1 r2 : ref) : Prop :=
  x (deref h r1) <> x (deref h r2) \/ y (deref h r1) <> y (deref h r2).

(** A store with two tiles that both store the coordinates (0,0), and a
    third at (1,0). *)
Definition stacked : heap unit :=
  mkHeap (fun r => match r with
                   | 0%nat => mkTile "copper-wall" 0 0 CNull 0 tt
                   | 1%nat => mkTile "router" 0 0 CNull 0 tt
                   | _ => mkTile "conveyor" 1 0 CNull 1 tt
                   end) 3%nat.

(** A store with a tile at (0,0) and a tile at (5,0). *)
Definition stray : heap unit :=
  mkHeap (fun r => match r with
                   | 0%nat => mkTile "copper-wall" 0 0 CNull 0 tt
                   | _ => mkTile "router" 5 0 CNull 0 tt
                   end) 2%nat.

(** The coordinates the tile at [r] stores. *)
Definition coords {Aux} (h : heap Aux) (r : ref) : Z * Z :=
  (x (deref h r), y (deref h r)).

(** A 1 by 1 schematic without tiles whose version field is 2. *)
Definition version_two : Schematic :=
  mkSchematic 1 1 2 [] (JArray []) [mkArray [None] []].

(** ** Command-line helpers ([src/parse-schematic/funcs.ts]) *)

(** [s.substring(n)], used after [startsWith] has found [n] dashes. *)
Fixpoint substring_from (n : nat) (s : string) : string :=
  match n, s with
  | O, _ => s
  | S k, String _ rest => substring_from k rest
  | S _, EmptyString => EmptyString
  end.

(** What [parseArgs] does: it returns its two results or throws
    [Error("Too many arguments!")]. *)
Inductive parsed : Type :=
  | Parsed (parsedArgs : object) (mainArgs : list string)
  | TooManyArguments.

(** [args[0]?.startsWith("-")] *)
Definition next_is_dash (args : list string) : bool :=
  match args with
  | [] => false
  | a :: _ => String.prefix "-" a
  end.

(** [args.splice(0, 1)[0] ?? "null"] *)
Definition next_or_null (args : list string) : string :=
  match args with
  | [] => "null"
  | a :: _ => a
  end.

(** The [while (true)] loop of [parseArgs], with the number of turns the
    counter [i] still allows: turn 1001 throws before it looks at the
    arguments. [tl args] is [args] after the second [splice]. *)
Fixpoint parseArgs_loop (turns : nat) (args : list string)
    (parsedArgs : object) (mainArgs : list string) : parsed :=
  match turns with
  | O => TooManyArguments
  | S k =>
      match args with
      | [] => Parsed parsedArgs mainArgs
      | arg :: args =>
          if String.prefix "--" arg then
            if next_is_dash args
            then parseArgs_loop k args (obj_set parsedArgs arg "null") mainArgs
            else parseArgs_loop k (tl args)
                   (obj_set parsedArgs (substring_from 2 arg) (next_or_null args))
                   mainArgs
          else if String.prefix "-" arg then
            if next_is_dash args
            then parseArgs_loop k args (obj_set parsedArgs arg "null") mainArgs
            else parseArgs_loop k (tl args)
                   (obj_set parsedArgs (substring_from 1 arg) (next_or_null args))
                   mainArgs
          else parseArgs_loop k args parsedArgs (mainArgs ++ [arg])
      end
  end.

Definition parseArgs (args : list string) : parsed :=
  parseArgs_loop 1000 args [] [].

(** The key under which an option followed by a value is recorded: its
    text without the two dashes, or without the one. *)
Definition option_name (arg : string) : string :=
  if String.prefix "--" arg then substring_from 2 arg else substring_from 1 arg.

(** *** Hex codes *)

(** The digit of [n.toString(16)] for a value below 16. *)
Definition hex_digit (d : Z) : ascii :=
  ascii_of_nat (Z.to_nat (if d <? 10 then 48 + d else 87 + d)).

Fixpoint toString16_loop (fuel : nat) (n : Z) (acc : string) : string :=
  match fuel with
  | O => acc
  | S k =>
      let acc := String (hex_digit (n mod 16)) acc in
      if n / 16 =? 0 then acc else toString16_loop k (n / 16) acc
  end.

(** [n.toString(16)] for an integer [n >= 0]. *)
Definition toString16 (n : Z) : string :=
  toString16_loop (S (Z.to_nat (Z.log2 n))) n EmptyString.

(** [s.toUpperCase()] on text made of ASCII characters, which is what
    [toString(16)] yields. *)
Fixpoint toUpperCase (s : string) : string :=
  match s with
  | EmptyString => EmptyString
  | String c rest =>
      let n := nat_of_ascii c in
      String (if (97 <=? n)%nat && (n <=? 122)%nat then ascii_of_nat (n - 32) else c)
             (toUpperCase rest)
  end.

(** [s.slice(-n)] on a text of at least [n] characters. *)
Definition slice_last (n : nat) (s : string) : string :=
  substring_from (String.length s - n) s.

Definition toHexCodes (buf : list byte) : list string :=
  map (fun el => slice_last 2 ("00" ++ toUpperCase (toString16 (Z_of_byte el))))
      buf.

(** [s.split(" ")] *)
Fixpoint split_space (s : string) : list string :=
  match s with
  | EmptyString => [EmptyString]
  | String c rest =>
      if Ascii.eqb c " " then EmptyString :: split_space rest
      else match split_space rest with
           | field :: fields => String c field :: fields
           | [] => [String c EmptyString]
           end
  end.

(** A JavaScript number that holds an integer, NaN or an infinity; the
    sign of zero is not kept. *)
Inductive number : Type :=
  | NaN
  | Num (v : Z)
  | Infinity (negative : bool).

(** The leading white space [parseInt] skips, in the UTF-8 bytes of the
    text: TAB, LF, VT, FF, CR, SP, then U+00A0, U+1680, U+2000 to
    U+200A, U+2028, U+2029, U+202F, U+205F, U+3000 and U+FEFF. *)
Fixpoint trim_start (s : string) : string :=
  match s with
  | EmptyString => s
  | String c r =>
      let n := nat_of_ascii c in
      if ((9 <=? n) && (n <=? 13) || (n =? 32))%nat then trim_start r
      else
        match r with
        | String c2 r2 =>
            let n2 := nat_of_ascii c2 in
            if ((n =? 194) && (n2 =? 160))%nat then trim_start r2
            else
              match r2 with
              | String c3 r3 =>
                  let n3 := nat_of_ascii c3 in
                  if ((n =? 225) && (n2 =? 154) && (n3 =? 128)
                      || (n =? 226) && (n2 =? 128)
                         && ((128 <=? n3) && (n3 <=? 138)
                             || (n3 =? 168) || (n3 =? 169) || (n3 =? 175))
                      || (n =? 226) && (n2 =? 129) && (n3 =? 159)
                      || (n =? 227) && (n2 =? 128) && (n3 =? 128)
                      || (n =? 239) && (n2 =? 187) && (n3 =? 191))%nat
                  then trim_start r3
                  else s
              | EmptyString => s
              end
        | EmptyString => s
        end
  end.

(** The value of a digit of radix 16, if [c] is one. *)
Definition digit16 (c : ascii) : option Z :=
  let n := Z.of_nat (nat_of_ascii c) in
  if (48 <=? n) && (n <=? 57) then Some (n - 48)
  else if (97 <=? n) && (n <=? 102) then Some (n - 87)
  else if (65 <=? n) && (n <=? 70) then Some (n - 55)
  else None.

(** The longest prefix of radix-16 digits: how many there are, and
    their value continuing from [acc]. *)
Fixpoint digits16 (s : string) (count : nat) (acc : Z) : nat * Z :=
  match s with
  | EmptyString => (count, acc)
  | String c rest =>
      match digit16 c with
      | Some d => digits16 rest (S count) (acc * 16 + d)
      | None => (count, acc)
      end
  end.

(** The double nearest to the integer [m >= 0], ties to the even
    significand of 53 bits, as an integer. *)
Definition round_double (m : Z) : Z :=
  let bits := Z.log2 m + 1 in
  if bits <=? 53 then m
  else
    let s := bits - 53 in
    let q := m / 2 ^ s in
    let r := m mod 2 ^ s in
    let half := 2 ^ (s - 1) in
    (if (half <? r) || ((r =? half) && Z.odd q) then q + 1 else q) * 2 ^ s.

(** [parseInt(s, 16)] *)
Definition parseInt16 (s : string) : number :=
  let s := trim_start s in
  let '(negative, s) :=
    match s with
    | String "-" r => (true, r)
    | String "+" r => (false, r)
    | _ => (false, s)
    end in
  let s :=
    match s with
    | String "0" (String "x" r) => r
    | String "0" (String "X" r) => r
    | _ => s
    end in
  match digits16 s O 0 with
  | (O, _) => NaN
  | (_, m) =>
      let d := round_double m in
      if 2 ^ 1024 <=? d then Infinity negative
      else Num (if negative then - d else d)
  end.

(** The byte [Buffer.from] stores for a number of the array. *)
Definition byte_of_number (v : number) : byte :=
  match v with
  | Num z => byte_of_Z z
  | _ => x00
  end.

Definition fromHexCodes (str : string) : list byte :=
  map (fun el => byte_of_number (parseInt16 el)) (split_space str).

(** [codes.join(" ")] *)
Definition join_space (codes : list string) : string := String.concat " " codes.

(** An argument that does not start with a dash. *)
Definition plain_arg (a : string) : bool := negb (String.prefix "-" a).

(** A digit of radix 16 in upper case. *)
Definition upper_hex (c : ascii) : bool :=
  let n := nat_of_ascii c in
  ((48 <=? n) && (n <=? 57) || (65 <=? n) && (n <=? 70))%nat.

(** A text of exactly two upper-case digits of radix 16. *)
Definition hex_code (s : string) : bool :=
  match s with
  | String a (String b EmptyString) => upper_hex a && upper_hex b
  | _ => false
  end.

Fixpoint has_space (s : string) : bool :=
  match s with
  | EmptyString => false
  | String c rest => Ascii.eqb c " " || has_space rest
  end.

Fixpoint count_spaces (s : string) : nat :=
  match s with
  | EmptyString => O
  | String c rest =>
      if Ascii.eqb c " " then S (count_spaces rest) else count_spaces rest
  end.

(** * Properties *)

(** ** Facts about the integer encodings *)

Lemma Z_of_byte_range (b : byte) : 0 <= Z_of_byte b < 256.
Proof.
  unfold Z_of_byte. pose proof (Byte.to_N_bounded b). lia.
Qed.

Lemma Z_of_byte_of_Z (v : Z) : Z_of_byte (byte_of_Z v) = v mod 256.
Proof.
  unfold Z_of_byte, byte_of_Z.
  assert (Hr : 0 <= v mod 256 < 256) by (apply Z.mod_pos_bound; lia).
  destruct (Byte.of_N (Z.to_N (v mod 256))) as [b|] eqn:E.
  - apply Byte.to_of_N in E. rewrite E. lia.
  - apply Byte.of_N_None_iff in E. lia.
Qed.

Lemma byte_of_Z_of_byte (b : byte) : byte_of_Z (Z_of_byte b) = b.
Proof.
  unfold byte_of_Z. pose proof (Z_of_byte_range b) as Hr.
  rewrite Z.mod_small by lia. unfold Z_of_byte.
  rewrite N2Z.id, Byte.of_to_N. reflexivity.
Qed.

Lemma be_decode_app (xs ys : list byte) (acc : Z) :
  be_decode (xs ++ ys) acc = be_decode ys (be_decode xs acc).
Proof. unfold be_decode. apply fold_left_app. Qed.

Lemma be_decode_encode (n : nat) (v acc : Z) :
  be_decode (be_encode n v) acc = acc * 256 ^ Z.of_nat n + v mod 256 ^ Z.of_nat n.
Proof.
  revert acc. induction n as [|n IH]; intros acc.
  - simpl. rewrite Z.mod_1_r. lia.
  - cbn [be_encode]. unfold be_decode in *. cbn [fold_left].
    rewrite IH, Z_of_byte_of_Z.
    rewrite Nat2Z.inj_succ, Z.pow_succ_r by lia.
    set (p := 256 ^ Z.of_nat n).
    assert (Hp : 0 < p) by (apply Z.pow_pos_nonneg; lia).
    rewrite (Z.mul_comm 256 p), Z.rem_mul_r by lia.
    lia.
Qed.

Lemma length_be_encode (n : nat) (v : Z) : length (be_encode n v) = n.
Proof. induction n; simpl; congruence. Qed.

Lemma to_signed_wrap (w v : Z) :
  0 < w -> - 2 ^ (w - 1) <= v < 2 ^ (w - 1) -> to_signed w (v mod 2 ^ w) = v.
Proof.
  intros Hw Hv. unfold to_signed.
  assert (H2 : 2 ^ w = 2 * 2 ^ (w - 1)).
  { replace w with (Z.succ (w - 1)) at 1 by lia. apply Z.pow_succ_r. lia. }
  destruct (Z.ltb_spec (v mod 2 ^ w) (2 ^ (w - 1))) as [Hlt|Hge].
  - destruct (Z.neg_nonneg_cases v) as [Hn|Hn].
    + rewrite <- (Z.mod_add v 1 (2 ^ w)) in Hlt by lia.
      rewrite Z.mod_small in Hlt by lia. lia.
    + apply Z.mod_small. lia.
  - destruct (Z.neg_nonneg_cases v) as [Hn|Hn].
    + rewrite <- (Z.mod_add v 1 (2 ^ w)) by lia.
      rewrite Z.mod_small by lia. lia.
    + rewrite Z.mod_small in Hge by lia. lia.
Qed.

(** ** Reading back what was written *)

Lemma readBytes_app (bs rest : list byte) :
  readBytes (length bs) (bs ++ rest) = Ok (bs, rest).
Proof.
  unfold readBytes. rewrite length_app.
  destruct (Nat.leb_spec (length bs) (length bs + length rest)); [|lia].
  by rewrite take_app_length, drop_app_length.
Qed.

Lemma readBytes_encode (n : nat) (v : Z) (rest : list byte) :
  readBytes n (be_encode n v ++ rest) = Ok (be_encode n v, rest).
Proof.
  rewrite <- (length_be_encode n v) at 1. apply readBytes_app.
Qed.



Lemma readUInt16BE_write (v : Z) (rest : list byte) :
  0 <= v < 65536 -> readUInt16BE (writeUInt16BE v ++ rest) = Ok (v, rest).
Proof.
  intros Hv. unfold readUInt16BE, writeUInt16BE. rewrite readBytes_encode.
  cbn [mbind res_bind]. rewrite be_decode_encode.
  change (256 ^ Z.of_nat 2) with 65536. rewrite Z.mod_small by lia.
  do 2 f_equal.
Qed.


Lemma readUTF8_write (s : string) (rest : list byte) :
  byte_length s < 65536 -> readUTF8 (writeUTF8 s ++ rest) = Ok (s, rest).
Proof.
  unfold byte_length. intros Hs. unfold readUTF8, writeUTF8.
  cbv zeta. rewrite <- app_assoc, readUInt16BE_write by lia.
  cbn [mbind res_bind]. rewrite Nat2Z.id, readBytes_app.
  cbn [mbind res_bind]. by rewrite string_of_list_byte_of_string.
Qed.

(** ** Coordinate packing *)

Lemma lor_disjoint (a b : Z) :
  0 <= b < 2 ^ 16 -> Z.lor (Z.shiftl a 16) b = a * 2 ^ 16 + b.
Proof.
  intros Hb. rewrite <- Z.shiftl_mul_pow2 by lia.
  assert (Hd : Z.land (Z.shiftl a 16) b = 0).
  { apply Z.bits_inj'. intros n Hn. rewrite Z.land_spec, Z.bits_0.
    destruct (Z.lt_ge_cases n 16) as [Hlt|Hge].
    - by rewrite Z.shiftl_spec_low.
    - rewrite andb_false_iff. right.
      destruct (Z.eq_dec b 0) as [->|Hnz]; [apply Z.bits_0|].
      apply Z.bits_above_log2; [lia|].
      apply Z.lt_le_trans with 16; [|done].
      apply Z.log2_lt_pow2; lia. }
  rewrite <- Z.lxor_lor by done. symmetry. by apply Z.add_nocarry_lxor.
Qed.

Lemma Point2_pack_value (x y : Z) :
  Point2.supported x y -> Point2.pack x y = x * 65536 + y mod 65536.
Proof.
  intros [Hx Hy]. unfold Point2.pack.
  change 65535 with (Z.ones 16). rewrite Z.land_ones by lia.
  assert (Hm : 0 <= y mod 2 ^ 16 < 2 ^ 16) by (apply Z.mod_pos_bound; lia).
  rewrite lor_disjoint by done.
  change (2 ^ 16) with 65536 in *. change (2 ^ 15) with 32768 in *.
  apply to_signed_wrap; [lia|]. change (2 ^ (32 - 1)) with 2147483648. lia.
Qed.

Lemma Point2_unpack_pack (x y : Z) :
  Point2.supported x y -> Point2.unpack (Point2.pack x y) = (x, y).
Proof.
  intros Hs. rewrite Point2_pack_value by done. destruct Hs as [Hx Hy].
  unfold Point2.unpack. change 65535 with (Z.ones 16).
  rewrite !Z.land_ones, Z.shiftr_div_pow2 by lia.
  change (2 ^ 16) with 65536 in *.
  assert (Hm : 0 <= y mod 65536 < 65536) by (apply Z.mod_pos_bound; lia).
  replace ((x * 65536 + y mod 65536) / 65536) with x
    by (rewrite Z.div_add_l, Z.div_small by lia; lia).
  replace ((x * 65536 + y mod 65536) mod 65536) with (y mod 65536)
    by (rewrite Z.add_comm, Z.mod_add, Z.mod_mod by lia; lia).
  change 65536 with (2 ^ 16).
  rewrite !to_signed_wrap by (change (16 - 1) with 15; lia).
  reflexivity.
Qed.

(** C5. [Point2.unpack] undoes [Point2.pack] on every coordinate pair the
    packing supports (16 bits per axis, two's complement). *)
Theorem C5_unpack_pack (x y : Z) :
  Point2.supported x y -> Point2.unpack (Point2.pack x y) = (x, y).
Proof. apply Point2_unpack_pack. Qed.

Lemma C5_unpack_pack_witness :
  Point2.supported (-3) 127 /\ Point2.unpack (Point2.pack (-3) 127) = (-3, 127).
Proof.
  assert (H : Point2.supported (-3) 127) by (unfold Point2.supported; lia).
  split; [exact H | exact (C5_unpack_pack (-3) 127 H)].
Defined.

(** ** Tile accessors *)

Lemma row_at_Some (g : list Row) (y : Z) (row : Row) :
  row_at g y = Some row <-> 0 <= y /\ g !! Z.to_nat y = Some row.
Proof.
  unfold row_at. destruct (Z.ltb_spec y 0); split.
  - done.
  - lia.
  - by split.
  - by intros [_ ?].
Qed.

Lemma row_at_None (g : list Row) (y : Z) :
  row_at g y = None <-> y < 0 \/ Z.of_nat (length g) <= y.
Proof.
  unfold row_at. destruct (Z.ltb_spec y 0) as [Hn|Hp].
  - split; [by left | done].
  - rewrite lookup_ge_None. lia.
Qed.

(** Inside the rows [getTileAt] returns, whatever the column. *)
Lemma getTileAt_in_rows (s : Schematic) (x y : Z) :
  0 <= y < Z.of_nat (length (tiles s)) -> exists c, getTileAt s x y = Ok c.
Proof.
  intros Hy. unfold getTileAt.
  destruct (row_at (tiles s) y) as [row|] eqn:E; [by eexists|].
  apply row_at_None in E. lia.
Qed.

(** C10. Where the claim fails: for a row index outside the rows of the
    grid, [getTileAt] does not return an empty result, it throws a
    [TypeError]. *)
Theorem C10_getTileAt_throws_outside_rows (s : Schematic) (x y : Z) :
  y < 0 \/ Z.of_nat (length (tiles s)) <= y ->
  getTileAt s x y = Thrown TypeError.
Proof.
  intros Hy. unfold getTileAt. apply row_at_None in Hy. by rewrite Hy.
Qed.

Lemma C10_getTileAt_throws_outside_rows_witness :
  (1 < 0 \/ Z.of_nat (length (tiles one_by_one)) <= 1)
  /\ getTileAt one_by_one 0 1 = Thrown TypeError.
Proof.
  assert (H : 1 < 0 \/ Z.of_nat (length (tiles one_by_one)) <= 1)
    by (right; simpl; lia).
  split; [exact H | exact (C10_getTileAt_throws_outside_rows one_by_one 0 1 H)].
Defined.

Lemma arr_get_set_eq {T} (a : jsarray T) (i : Z) (v : T) :
  arr_get (arr_set a i v) i = Some v.
Proof.
  unfold arr_get, arr_set. destruct (Z.ltb_spec i 0) as [Hn|Hp].
  - cbn [props find fst snd]. by rewrite Z.eqb_refl.
  - destruct (Nat.ltb_spec (Z.to_nat i) (length (elems a))) as [Hlt|Hge];
      cbn [elems].
    + by rewrite list_lookup_insert_eq.
    + rewrite lookup_app_r by lia.
      rewrite lookup_app_r by (rewrite length_replicate; lia).
      rewrite length_replicate.
      by replace (Z.to_nat i - length (elems a) - (Z.to_nat i - length (elems a)))%nat
        with O by lia.
Qed.

(** C9. Where the claim fails: [setTileAt] checks no bound. With a
    column at or beyond the width the row grows, and the tile is stored
    in a cell whose column, which is also the tile's stored [x], is not
    below the width. *)
Theorem C9_setTileAt_beyond_width {Aux} (s : Schematic) (x' y' : Z)
    (tile : ref) (h : heap Aux) :
  0 <= y' < Z.of_nat (length (tiles s)) -> width s <= x' ->
  exists s', setTileAt s x' y' tile h = (Ok s', update tile (set_pos x' y') h)
    /\ getTileAt s' x' y' = Ok (Some tile)
    /\ x (deref (update tile (set_pos x' y') h) tile) = x'
    /\ width s' <= x'.
Proof.
  intros Hy Hx. unfold setTileAt.
  destruct (row_at (tiles s) y') as [row|] eqn:E.
  2: { apply row_at_None in E. lia. }
  eexists. split; [reflexivity|]. split; [|split].
  - unfold getTileAt. cbn [tiles].
    assert (Hr : row_at (<[Z.to_nat y' := arr_set row x' tile]> (tiles s)) y'
                 = Some (arr_set row x' tile)).
    { apply row_at_Some. split; [lia|]. apply list_lookup_insert_eq. lia. }
    rewrite Hr. by rewrite arr_get_set_eq.
  - cbn [update deref]. by rewrite Nat.eqb_refl.
  - done.
Qed.

Lemma C9_setTileAt_beyond_width_witness :
  exists s', setTileAt one_by_one 1 0 0%nat one_wall
             = (Ok s', update 0%nat (set_pos 1 0) one_wall)
    /\ getTileAt s' 1 0 = Ok (Some 0%nat)
    /\ x (deref (update 0%nat (set_pos 1 0) one_wall) 0%nat) = 1
    /\ width s' <= 1.
Proof.
  apply (C9_setTileAt_beyond_width one_by_one 1 0 0%nat one_wall);
    simpl; lia.
Defined.

(** ** The frame of [Schematic.read] *)

Lemma bind_Ok {A B} (m : res A) (k : A -> res B) (b : B) :
  m ≫= k = Ok b -> exists a, m = Ok a /\ k a = Ok b.
Proof. destruct m; [by eexists | done | done]. Qed.

Lemma be_decode_bound (bs : list byte) (acc : Z) :
  0 <= acc ->
  0 <= be_decode bs acc < (acc + 1) * 256 ^ Z.of_nat (length bs).
Proof.
  revert acc. induction bs as [|b bs IH]; intros acc Hacc.
  - simpl. lia.
  - unfold be_decode in *. cbn [fold_left length].
    pose proof (Z_of_byte_range b) as Hb.
    specialize (IH (acc * 256 + Z_of_byte b) ltac:(lia)).
    rewrite Nat2Z.inj_succ, Z.pow_succ_r by lia.
    assert (Hp : 0 < 256 ^ Z.of_nat (length bs)) by (apply Z.pow_pos_nonneg; lia).
    split; [lia|]. nia.
Qed.

Lemma readBytes_length (n : nat) (c c' : cursor) (bs : list byte) :
  readBytes n c = Ok (bs, c') -> length bs = n /\ c = bs ++ c'.
Proof.
  unfold readBytes. destruct (Nat.leb_spec n (length c)); [|done].
  intros [= <- <-]. split; [rewrite length_take; lia | by rewrite take_drop].
Qed.

Lemma readUInt16BE_range (c c' : cursor) (v : Z) :
  readUInt16BE c = Ok (v, c') -> 0 <= v < 65536.
Proof.
  unfold readUInt16BE. intros H.
  apply bind_Ok in H as ([bs c1] & Hb & H). injection H as <- <-.
  apply readBytes_length in Hb as [Hl _].
  pose proof (be_decode_bound bs 0 ltac:(lia)) as Hd. rewrite Hl in Hd.
  change ((0 + 1) * 256 ^ Z.of_nat 2) with 65536 in Hd. done.
Qed.

Lemma check_header_magic (rest : list byte) :
  check_header headerBytes (magic ++ rest) = Ok (x01 :: rest).
Proof. reflexivity. Qed.

(** After the magic and the version byte, [read] inflates all the rest. *)
Lemma read_magic {Aux} (P : Platform Aux) (rest : list byte) (h : heap Aux) :
  read P (magic ++ rest) h =
  match inflateSync P rest with
  | None => Thrown ZlibError
  | Some data => read_payload P 1 data h
  end.
Proof.
  unfold read. rewrite check_header_magic. reflexivity.
Qed.

(** C3. Where the claim fails: when the bytes after the five-byte header
    do not inflate, [read] returns no error value; the exception of
    [zlib.inflateSync] leaves [read] uncaught. *)
Theorem C3_corrupt_payload_throws {Aux} (P : Platform Aux)
    (rest : list byte) (h : heap Aux) :
  inflateSync P rest = None -> read P (magic ++ rest) h = Thrown ZlibError.
Proof. intros H. by rewrite read_magic, H. Qed.

Lemma C3_corrupt_payload_throws_witness :
  inflateSync reference [xff; xff] = None
  /\ read reference (magic ++ [xff; xff]) empty_heap = Thrown ZlibError.
Proof.
  assert (H : inflateSync reference [xff; xff] = None) by reflexivity.
  split; [exact H | exact (C3_corrupt_payload_throws reference _ empty_heap H)].
Defined.

Lemma read_preamble_size {Aux} (P : Platform Aux) (data d' : cursor)
    (w hgt n : Z) tags labels blocks :
  read_preamble P data = Ok ((w, hgt, tags, labels, blocks, n), d') ->
  0 <= w <= 128 /\ 0 <= hgt <= 128.
Proof.
  unfold read_preamble. intros H.
  apply bind_Ok in H as ([w' d1] & Hw & H).
  apply bind_Ok in H as ([h' d2] & Hh & H).
  apply readUInt16BE_range in Hw, Hh.
  destruct (Z.ltb_spec 128 w'), (Z.ltb_spec 128 h'); try done.
  cbn [orb] in H.
  apply bind_Ok in H as ([tc d3] & _ & H).
  apply bind_Ok in H as ([tg d4] & _ & H).
  apply bind_Ok in H as ([nb d5] & _ & H).
  apply bind_Ok in H as ([bl d6] & _ & H).
  apply bind_Ok in H as ([nt d7] & _ & H).
  injection H as <- <- _ _ _ _ _. lia.
Qed.

(** C6. A declared tile count above [width * height] makes [read] return
    the too-many-tiles error, which carries the bound and the count. *)
Theorem C6_too_many_tiles {Aux} (P : Platform Aux) (rest data d' : cursor)
    (h : heap Aux) (w hgt n : Z) tags labels blocks :
  inflateSync P rest = Some data ->
  read_preamble P data = Ok ((w, hgt, tags, labels, blocks, n), d') ->
  w * hgt < n ->
  read P (magic ++ rest) h = Err (TooManyTiles (w * hgt) n).
Proof.
  intros Hi Hp Hn. rewrite read_magic, Hi. unfold read_payload.
  pose proof (read_preamble_size _ _ _ _ _ _ _ _ _ Hp) as [Hw Hh].
  rewrite Hp. cbn [mbind res_bind].
  destruct (Z.ltb_spec n 0); [nia|].
  destruct (Z.ltb_spec (w * hgt) n); [done | lia].
Qed.

Lemma C6_too_many_tiles_witness :
  read reference (magic ++ deflateSync reference overfull_payload) empty_heap
  = Err (TooManyTiles (1 * 1) 2).
Proof.
  apply (C6_too_many_tiles reference _ overfull_payload [] empty_heap
           1 1 2 [] (JArray []) []).
  - vm_compute. reflexivity.
  - vm_compute. reflexivity.
  - lia.
Defined.

(** ** The tile loop and the constructor *)

Lemma blank_grid_Ok (w hgt : Z) :
  0 <= w < 2 ^ 32 ->
  blank_grid w hgt
  = Ok (replicate (Z.to_nat hgt) (mkArray (replicate (Z.to_nat w) None) [])).
Proof.
  intros Hw. unfold blank_grid.
  destruct (Z.ltb_spec w 0); [lia|].
  destruct (Z.leb_spec (2 ^ 32) w); [lia|].
  by rewrite andb_false_r.
Qed.

(** The loop allocates and never touches a tile that already exists. *)
Lemma readTiles_store {Aux} (P : Platform Aux) blocks (w hgt : Z) (n : nat)
    (data : cursor) (h h' : heap Aux) tiles :
  readTiles P blocks w hgt n data h = Ok (tiles, h') ->
  (next h <= next h')%nat
  /\ forall r, (r < next h)%nat -> deref h' r = deref h r.
Proof.
  revert data h h' tiles. induction n as [|n IH]; intros data h h' tiles.
  - intros [= <- <-]. done.
  - cbn [readTiles]. intros H.
    apply bind_Ok in H as ([[[[[id px] py] cfg] rot] d1] & _ & H).
    destruct (negb _); [done|]. destruct (negb _); [done|].
    destruct (if no_block _ then _ else _) as [b|].
    + cbn [alloc] in H.
      apply bind_Ok in H as ([tl h1] & Hr & H). injection H as <- <-.
      apply IH in Hr as [Hn Hd]. cbn [next deref] in *. split; [lia|].
      intros r Hlt. rewrite Hd by lia.
      destruct (Nat.eqb_spec r (next h)); [lia | done].
    + apply bind_Ok in H as ([tl h1] & Hr & H). injection H as <- <-.
      by apply IH in Hr.
Qed.

Lemma read_payload_step {Aux} (P : Platform Aux) (data d0 : cursor)
    (h : heap Aux) (w hgt n : Z) tags labels blocks :
  read_preamble P data = Ok ((w, hgt, tags, labels, blocks, n), d0) ->
  0 <= n <= w * hgt ->
  read_payload P 1 data h =
  '(tiles, h) ← readTiles P blocks w hgt (Z.to_nat n) d0 h;
  new_Schematic P hgt w 1 tags labels tiles h.
Proof.
  intros Hp Hn. unfold read_payload. rewrite Hp. cbn [mbind res_bind].
  destruct (Z.ltb_spec n 0); [lia|].
  destruct (Z.ltb_spec (w * hgt) n); [lia | done].
Qed.

(** C4. Where the claim fails: a record whose block index resolves to
    ["air"], to the empty text or to no name leaves a hole in the array
    of tiles, and the constructor's [sortTiles] throws a [TypeError] on
    the hole: [read] does not return. Stated for the first record of a
    file whose other records decode. *)
Theorem C4_skipped_record_throws {Aux} (P : Platform Aux)
    (rest data d0 d1 : cursor) (h h' : heap Aux) (w hgt n : Z)
    tags labels blocks (id px py rot : Z) (cfg : BlockConfig) tiles :
  inflateSync P rest = Some data ->
  read_preamble P data = Ok ((w, hgt, tags, labels, blocks, n), d0) ->
  0 < n <= w * hgt ->
  read_record P d0 = Ok ((id, px, py, cfg, rot), d1) ->
  0 <= rot <= 3 -> 0 <= px < w -> 0 <= py < hgt ->
  no_block (block_at blocks id) = true ->
  readTiles P blocks w hgt (Z.to_nat n - 1) d1 h = Ok (tiles, h') ->
  read P (magic ++ rest) h = Thrown TypeError.
Proof.
  intros Hi Hp Hn Hrec Hrot Hx Hy Hb Hrest.
  rewrite read_magic, Hi.
  pose proof (read_preamble_size _ _ _ _ _ _ _ _ _ Hp) as [Hw Hh].
  rewrite (read_payload_step P data d0 h w hgt n tags labels blocks) by (done || lia).
  replace (Z.to_nat n) with (S (Z.to_nat n - 1)) by lia.
  cbn [readTiles]. rewrite Hrec. cbn [mbind res_bind].
  assert (Hr : existsb (Z.eqb rot) [0; 1; 2; 3] = true).
  { assert (rot = 0 \/ rot = 1 \/ rot = 2 \/ rot = 3) as [-> | [-> | [-> | ->]]] by lia;
      reflexivity. }
  rewrite Hr. cbn [negb].
  destruct (Z.ltb_spec px w); [|lia]. destruct (Z.ltb_spec py hgt); [|lia].
  cbn [andb negb]. rewrite Hb, Hrest. cbn [mbind res_bind].
  unfold new_Schematic, sortTiles. rewrite blank_grid_Ok by lia.
  reflexivity.
Qed.

Lemma C4_skipped_record_throws_witness :
  read reference
    (magic ++ deflateSync reference (single_tile_payload "air" 0)) empty_heap
  = Thrown TypeError.
Proof.
  apply (C4_skipped_record_throws reference _
           (single_tile_payload "air" 0)
           (writeUInt8 0 ++ writeInt32BE 0 ++ TypeIO.writeObject CNull
            ++ writeUInt8 0)
           [] empty_heap empty_heap 1 1 1 [] (JArray []) ["air"%string]
           0 0 0 0 CNull []).
  all: try (vm_compute; reflexivity).
  all: lia.
Defined.

(** C2. Where the claim fails: [read] tests [x < width && y < height]
    only. A record with a negative coordinate passes, its tile is
    constructed, and the bound check of [sortTiles] then calls [fail]:
    [read] throws instead of returning the out-of-bounds error. Stated
    for the first record of a file whose other records decode. *)
Theorem C2_negative_coordinate_throws {Aux} (P : Platform Aux)
    (rest data d0 d1 : cursor) (h h' : heap Aux) (w hgt n : Z)
    tags labels blocks (id px py rot : Z) (cfg : BlockConfig) (b : string)
    tiles :
  inflateSync P rest = Some data ->
  read_preamble P data = Ok ((w, hgt, tags, labels, blocks, n), d0) ->
  0 < n <= w * hgt ->
  read_record P d0 = Ok ((id, px, py, cfg, rot), d1) ->
  0 <= rot <= 3 -> px < w -> py < hgt -> px < 0 \/ py < 0 ->
  block_at blocks id = Some b -> no_block (Some b) = false ->
  readTiles P blocks w hgt (Z.to_nat n - 1) d1
    (snd (alloc (mkTile b px py cfg rot (aux_init P)) h))
  = Ok (tiles, h') ->
  read P (magic ++ rest) h = Thrown (Failure (InvalidPosition px py w hgt)).
Proof.
  intros Hi Hp Hn Hrec Hrot Hx Hy Hneg Eb Hb Hrest.
  rewrite read_magic, Hi.
  pose proof (read_preamble_size _ _ _ _ _ _ _ _ _ Hp) as [Hw Hh].
  rewrite (read_payload_step P data d0 h w hgt n tags labels blocks) by (done || lia).
  replace (Z.to_nat n) with (S (Z.to_nat n - 1)) by lia.
  cbn [readTiles]. rewrite Hrec. cbn [mbind res_bind].
  assert (Hr : existsb (Z.eqb rot) [0; 1; 2; 3] = true).
  { assert (rot = 0 \/ rot = 1 \/ rot = 2 \/ rot = 3) as [-> | [-> | [-> | ->]]] by lia;
      reflexivity. }
  rewrite Hr. cbn [negb].
  destruct (Z.ltb_spec px w); [|lia]. destruct (Z.ltb_spec py hgt); [|lia].
  cbn [andb negb]. rewrite Eb, Hb.
  cbn [alloc snd] in *. rewrite Hrest.
  cbn [mbind res_bind].
  apply readTiles_store in Hrest as [_ Hd]. cbn [next deref] in Hd.
  specialize (Hd (next h) ltac:(lia)). rewrite Nat.eqb_refl in Hd.
  unfold new_Schematic, sortTiles. rewrite blank_grid_Ok by lia.
  cbn [mbind res_bind sortTiles_loop]. rewrite Hd. cbn [x y].
  assert (Hib : in_bounds w hgt px py = false).
  { unfold in_bounds. destruct (Z.leb_spec 0 px); [|done].
    destruct (Z.leb_spec 0 py); [lia|]. by rewrite andb_false_r. }
  by rewrite Hib.
Qed.

Lemma C2_negative_coordinate_throws_witness :
  read reference
    (magic ++ deflateSync reference
                (single_tile_payload "copper-wall" (Point2.pack (-1) 0)))
    empty_heap
  = Thrown (Failure (InvalidPosition (-1) 0 1 1)).
Proof.
  apply (C2_negative_coordinate_throws reference _
           (single_tile_payload "copper-wall" (Point2.pack (-1) 0))
           (writeUInt8 0 ++ writeInt32BE (Point2.pack (-1) 0)
            ++ TypeIO.writeObject CNull ++ writeUInt8 0)
           [] empty_heap
           (snd (alloc (mkTile "copper-wall" (-1) 0 CNull 0 tt) empty_heap))
           1 1 1 [] (JArray []) ["copper-wall"%string]
           0 (-1) 0 0 CNull "copper-wall"%string []).
  all: try (vm_compute; reflexivity).
  all: try lia.
Defined.

(** ** Labels *)

Lemma read_preamble_labels {Aux} (P : Platform Aux) (data d' : cursor)
    (w hgt n : Z) tags labels blocks :
  read_preamble P data = Ok ((w, hgt, tags, labels, blocks, n), d') ->
  labels = parse_labels P tags.
Proof.
  unfold read_preamble. intros H.
  apply bind_Ok in H as ([w' d1] & _ & H).
  apply bind_Ok in H as ([h' d2] & _ & H).
  destruct (_ || _); [done|].
  apply bind_Ok in H as ([tc d3] & _ & H).
  apply bind_Ok in H as ([tg d4] & _ & H).
  apply bind_Ok in H as ([nb d5] & _ & H).
  apply bind_Ok in H as ([bl d6] & _ & H).
  apply bind_Ok in H as ([nt d7] & _ & H).
  by injection H as _ _ <- <- _ _ _.
Qed.

Lemma new_Schematic_fields {Aux} (P : Platform Aux) (hgt w v : Z) tgs lbs
    tl (h h' : heap Aux) (s : Schematic) :
  new_Schematic P hgt w v tgs lbs tl h = Ok (s, h') ->
  height s = hgt /\ width s = w /\ version s = v /\ tags s = tgs
  /\ labels s = lbs /\ sortTiles h tl w hgt = Ok (tiles s)
  /\ h' = readConfigs P s h.
Proof.
  unfold new_Schematic. intros H.
  apply bind_Ok in H as (grid & Hg & H). injection H as <- <-.
  by rewrite Hg.
Qed.

(** What a successful [read] went through. *)
Lemma read_Ok {Aux} (P : Platform Aux) (input : list byte) (h h' : heap Aux)
    (s : Schematic) :
  read P input h = Ok (s, h') ->
  exists data d0 w hgt tgs lbs blocks n tl h1,
    inflateSync P (drop 5 input) = Some data
    /\ read_preamble P data = Ok ((w, hgt, tgs, lbs, blocks, n), d0)
    /\ 0 <= n <= w * hgt
    /\ readTiles P blocks w hgt (Z.to_nat n) d0 h = Ok (tl, h1)
    /\ new_Schematic P hgt w 1 tgs lbs tl h1 = Ok (s, h').
Proof.
  unfold read. intros H.
  apply bind_Ok in H as (raw & _ & H).
  apply bind_Ok in H as ([v c] & _ & H).
  destruct (Z.eqb_spec v 1) as [->|]; [|done]. cbn [negb] in H.
  destruct (inflateSync P (drop 5 input)) as [data|]; [|done].
  unfold read_payload in H.
  apply bind_Ok in H as ([[[[[[w hgt] tgs] lbs] blocks] n] d0] & Hp & H).
  destruct (Z.ltb_spec n 0); [done|].
  destruct (Z.ltb_spec (w * hgt) n); [done|].
  apply bind_Ok in H as ([tl h1] & Ht & H).
  exists data, d0, w, hgt, tgs, lbs, blocks, n, tl, h1.
  repeat split; (done || lia).
Qed.

Lemma read_labels {Aux} (P : Platform Aux) (input : list byte)
    (h h' : heap Aux) (s : Schematic) :
  read P input h = Ok (s, h') -> labels s = parse_labels P (tags s).
Proof.
  intros H.
  apply read_Ok in H as (data & d0 & w & hgt & tgs & lbs & blocks & n & tl
                         & h1 & _ & Hp & _ & _ & Hs).
  apply new_Schematic_fields in Hs as (_ & _ & _ & -> & -> & _).
  by apply read_preamble_labels in Hp.
Qed.

(** Without a [labels] tag, or with one that is not JSON, the labels of
    a decoded schematic are the empty list. *)
Lemma read_labels_absent {Aux} (P : Platform Aux) (input : list byte)
    (h h' : heap Aux) (s : Schematic) :
  JSON_parse P "undefined" = None ->
  read P input h = Ok (s, h') -> obj_get (tags s) "labels" = None ->
  labels s = JArray [].
Proof.
  intros Hu H Hn. rewrite (read_labels _ _ _ _ _ H).
  unfold parse_labels. by rewrite Hn, Hu.
Qed.

Lemma read_labels_malformed {Aux} (P : Platform Aux) (input : list byte)
    (h h' : heap Aux) (s : Schematic) (v : string) :
  read P input h = Ok (s, h') -> obj_get (tags s) "labels" = Some v ->
  JSON_parse P v = None -> labels s = JArray [].
Proof.
  intros H Hv Hn. rewrite (read_labels _ _ _ _ _ H).
  unfold parse_labels. by rewrite Hv, Hn.
Qed.

(** C8. Where the claim fails: [read] keeps whatever [JSON.parse]
    returns for the [labels] tag. When the text is JSON but not an array
    of strings, the decode succeeds and [labels] is that value, not a
    list of strings. *)
Theorem C8_labels_unchecked {Aux} (P : Platform Aux) (input : list byte)
    (h h' : heap Aux) (s : Schematic) (v : string) (j : json) :
  read P input h = Ok (s, h') ->
  obj_get (tags s) "labels" = Some v ->
  JSON_parse P v = Some j ->
  is_string_array j = false ->
  labels s = j /\ is_string_array (labels s) = false.
Proof.
  intros H Hv Hj Hn. rewrite (read_labels _ _ _ _ _ H).
  unfold parse_labels. by rewrite Hv, Hj.
Qed.

Lemma C8_labels_unchecked_witness :
  read reference (magic ++ deflateSync reference (labels_payload "5"))
       empty_heap
  = Ok (mkSchematic 0 0 1 [("labels", "5")%string] (JNumber "5") [], empty_heap)
  /\ labels (mkSchematic 0 0 1 [("labels", "5")%string] (JNumber "5") [])
     = JNumber "5"
  /\ is_string_array
       (labels (mkSchematic 0 0 1 [("labels", "5")%string] (JNumber "5") []))
     = false.
Proof.
  assert (H : read reference
                (magic ++ deflateSync reference (labels_payload "5"))
                empty_heap
              = Ok (mkSchematic 0 0 1 [("labels", "5")%string] (JNumber "5") [],
                    empty_heap))
    by (vm_compute; reflexivity).
  split; [exact H|].
  apply (C8_labels_unchecked reference _ empty_heap empty_heap _
           "5" (JNumber "5") H); reflexivity.
Defined.

(** ** Block-name interning *)

Lemma Map_get_numbered (k : nat) (table : list string) (n : string) :
  Map_get (numbered_from k table) n = index_from k n table.
Proof.
  revert k. induction table as [|m rest IH]; intros k; [done|].
  unfold Map_get in *. cbn [numbered_from find fst snd index_from].
  destruct (String.eqb m n); [done | apply IH].
Qed.

Lemma index_from_None (k : nat) (table : list string) (n : string) :
  index_from k n table = None <-> existsb (String.eqb n) table = false.
Proof.
  revert k. induction table as [|m rest IH]; intros k; [done|].
  cbn [index_from existsb]. rewrite (String.eqb_sym n m).
  destruct (String.eqb m n); [done | apply IH].
Qed.

Lemma length_numbered (k : nat) (table : list string) :
  length (numbered_from k table) = length table.
Proof. revert k. induction table; intros k; simpl; auto. Qed.

Lemma map_fst_numbered (k : nat) (table : list string) :
  map fst (numbered_from k table) = table.
Proof. revert k. induction table; intros k; simpl; f_equal; auto. Qed.

Lemma Map_set_numbered (k : nat) (table : list string) (n : string) :
  index_from k n table = None ->
  Map_set (numbered_from k table) n (Z.of_nat (k + length table))
  = numbered_from k (table ++ [n]).
Proof.
  revert k. induction table as [|m rest IH]; intros k Hn.
  - cbn. by rewrite Nat.add_0_r.
  - cbn [index_from] in Hn. cbn [numbered_from Map_set app length].
    destruct (String.eqb m n); [done|].
    f_equal. rewrite <- IH by done. do 2 f_equal. lia.
Qed.

Lemma index_from_app (k : nat) (table more : list string) (n : string) (i : Z) :
  index_from k n table = Some i -> index_from k n (table ++ more) = Some i.
Proof.
  revert k. induction table as [|m rest IH]; intros k; [done|].
  cbn [index_from app]. destruct (String.eqb m n); [done | apply IH].
Qed.

Lemma index_from_last (k : nat) (table : list string) (n : string) :
  index_from k n table = None ->
  index_from k n (table ++ [n]) = Some (Z.of_nat (k + length table)).
Proof.
  revert k. induction table as [|m rest IH]; intros k Hn.
  - cbn. by rewrite String.eqb_refl, Nat.add_0_r.
  - cbn [index_from app length] in *. destruct (String.eqb m n); [done|].
    rewrite IH by done. do 2 f_equal. lia.
Qed.

Lemma intern_extends (names table : list string) :
  exists more, intern names table = table ++ more.
Proof.
  revert table. induction names as [|n rest IH]; intros table.
  - exists []. by rewrite app_nil_r.
  - cbn [intern]. destruct (existsb _ table).
    + apply IH.
    + destruct (IH (table ++ [n])) as [more ->].
      exists (n :: more). by rewrite <- app_assoc.
Qed.

Lemma index_from_intern (names table : list string) (n : string) (i : Z) :
  index_from 0 n table = Some i -> index_from 0 n (intern names table) = Some i.
Proof.
  intros H. destruct (intern_extends names table) as [more ->].
  by apply index_from_app.
Qed.



(** The loop of [getBlockMap], started on a table numbered from 0,
    interns the names of the tiles in order and tags each tile with the
    position of its name. *)
Lemma getBlockMap_loop_spec {Aux} (h : heap Aux) (ts : list ref)
    (table : list string) :
  let names := map (fun r => name (deref h r)) ts in
  exists others,
    getBlockMap_loop h ts (numbered_from 0 table)
    = (numbered_from 0 (intern names table), others)
    /\ map fst others = ts
    /\ Forall (fun e : ref * Z =>
                 index_from 0 (name (deref h (fst e))) (intern names table)
                 = Some (snd e)) others.
Proof.
  revert table. induction ts as [|t rest IH]; intros table; cbn zeta.
  - exists []. by repeat split.
  - cbn [getBlockMap_loop map intern].
    rewrite Map_get_numbered, length_numbered.
    destruct (index_from 0 (name (deref h t)) table) as [i|] eqn:E.
    + assert (Hex : existsb (String.eqb (name (deref h t))) table = true).
      { destruct (existsb _ table) eqn:E'; [done|].
        apply (index_from_None 0) in E'. congruence. }
      rewrite Hex. destruct (IH table) as (others & -> & Hf & Ha).
      exists ((t, i) :: others). split; [done|]. split; [by cbn; f_equal|].
      constructor; [|done]. cbn [fst snd]. by apply index_from_intern.
    + rewrite (proj1 (index_from_None 0 table _) E).
      pose proof (Map_set_numbered 0 table _ E) as Hs.
      cbn [Nat.add] in Hs. rewrite Hs.
      destruct (IH (table ++ [name (deref h t)])) as (others & -> & Hf & Ha).
      exists ((t, Z.of_nat (length table)) :: others).
      split; [done|]. split; [by cbn; f_equal|].
      constructor; [|done]. cbn [fst snd]. apply index_from_intern.
      pose proof (index_from_last 0 table _ E) as Hl. by cbn [Nat.add] in Hl.
Qed.

Lemma getBlockMap_spec {Aux} (h : heap Aux) (ts : list ref) :
  let names := map (fun r => name (deref h r)) ts in
  exists mapping,
    getBlockMap h ts = (intern names [], mapping)
    /\ map fst mapping = ts
    /\ Forall (fun e : ref * Z =>
                 index_from 0 (name (deref h (fst e))) (intern names [])
                 = Some (snd e)) mapping.
Proof.
  cbn zeta. destruct (getBlockMap_loop_spec h ts []) as (others & He & Hf & Ha).
  exists others. unfold getBlockMap. change (@nil (string * Z)) with (numbered_from 0 []).
  rewrite He. by rewrite map_fst_numbered.
Qed.

(** ** Iteration order *)






Lemma unsortTiles_flat_map (g : list Row) :
  unsortTiles g = flat_map (fun row : Row => omap id (elems row)) g.
Proof.
  unfold unsortTiles. induction g as [|row g IH]; [done|].
  cbn [map concat flat_map]. by rewrite omap_app, IH.
Qed.



(** ** The bytes depend on the schematic's tiles only *)









(** ** Round trip: tags and block names *)

Lemma readUTF8_pair (k v : string) (rest : list byte) :
  byte_length k < 65536 -> byte_length v < 65536 ->
  readUTF8 ((writeUTF8 k ++ writeUTF8 v) ++ rest) = Ok (k, writeUTF8 v ++ rest).
Proof. intros Hk Hv. by rewrite <- app_assoc, readUTF8_write. Qed.









Lemma index_from_lookup (k : nat) (table : list string) (n : string) (i : Z) :
  index_from k n table = Some i ->
  Z.of_nat k <= i < Z.of_nat (k + length table)
  /\ table !! (Z.to_nat i - k)%nat = Some n.
Proof.
  revert k. induction table as [|m rest IH]; intros k; [done|].
  cbn [index_from length]. destruct (String.eqb_spec m n) as [->|].
  - intros [= <-]. split; [lia|]. by rewrite Nat2Z.id, Nat.sub_diag.
  - intros [Hr Hl]%IH. split; [lia|].
    replace (Z.to_nat i - k)%nat with (S (Z.to_nat i - S k)) by lia. done.
Qed.

Lemma block_at_index (table : list string) (n : string) (i : Z) :
  index_from 0 n table = Some i ->
  0 <= i < Z.of_nat (length table) /\ block_at table i = Some n.
Proof.
  intros [Hr Hl]%index_from_lookup. cbn [Nat.add] in Hr. split; [lia|].
  unfold block_at. destruct (Z.ltb_spec i 0); [lia|].
  by rewrite Nat.sub_0_r in Hl.
Qed.

(** ** Round trip: tile records *)

Lemma rotation_valid (rot : Z) :
  0 <= rot <= 3 -> existsb (Z.eqb rot) [0; 1; 2; 3] = true.
Proof.
  intros H.
  assert (rot = 0 \/ rot = 1 \/ rot = 2 \/ rot = 3) as [-> | [-> | [-> | ->]]]
    by lia; reflexivity.
Qed.



(** ** What [sortTiles] builds *)

Lemma at_cell_true {Aux} (h : heap Aux) (xi yi : nat) (r : ref) :
  at_cell h xi yi r = true
  <-> x (deref h r) = Z.of_nat xi /\ y (deref h r) = Z.of_nat yi.
Proof. unfold at_cell. rewrite andb_true_iff, !Z.eqb_eq. done. Qed.

Lemma shaped_lookup (w' h' : nat) (g : list Row) (yi : nat) (row : Row) :
  shaped w' h' g -> g !! yi = Some row -> length (elems row) = w'.
Proof.
  intros [_ Hf] Hrow. rewrite Forall_forall in Hf.
  apply Hf. by eapply list_elem_of_lookup_2.
Qed.

Lemma cell_at_Some (g : list Row) (xi yi : nat) (r : ref) :
  cell_at g xi yi = Some r
  <-> exists row, g !! yi = Some row /\ elems row !! xi = Some (Some r).
Proof.
  unfold cell_at. split.
  - destruct (g !! yi) as [row|]; [|done].
    destruct (elems row !! xi) as [c|] eqn:E; [|done].
    intros ->. by exists row.
  - intros (row & -> & ->). done.
Qed.

Lemma cell_at_shaped (w' h' : nat) (g : list Row) (xi yi : nat) (r : ref) :
  shaped w' h' g -> cell_at g xi yi = Some r -> (xi < w')%nat /\ (yi < h')%nat.
Proof.
  intros Hs (row & Hrow & Hc)%cell_at_Some.
  pose proof (shaped_lookup _ _ _ _ _ Hs Hrow) as Hl.
  apply lookup_lt_Some in Hc. apply lookup_lt_Some in Hrow.
  destruct Hs as [Hlen _]. rewrite <- Hl, <- Hlen. done.
Qed.

(** Storing a tile in a cell of the grid changes that cell only. *)
Lemma cell_at_store (w' h' : nat) (g : list Row) (row : Row) (xn yn : nat)
    (r : ref) (xi yi : nat) :
  shaped w' h' g -> g !! yn = Some row -> (xn < w')%nat ->
  cell_at (<[yn := arr_set row (Z.of_nat xn) r]> g) xi yi
  = if (xi =? xn)%nat && (yi =? yn)%nat then Some r else cell_at g xi yi.
Proof.
  intros Hs Hrow Hxn.
  pose proof (shaped_lookup _ _ _ _ _ Hs Hrow) as Hl.
  unfold cell_at, arr_set. destruct (Z.ltb_spec (Z.of_nat xn) 0); [lia|].
  rewrite Nat2Z.id. destruct (Nat.ltb_spec xn (length (elems row))); [|lia].
  destruct (Nat.eqb_spec yi yn) as [->|Hy].
  - rewrite list_lookup_insert_eq by (by eapply lookup_lt_Some).
    cbn [elems]. unfold Row in *. rewrite Hrow.
    destruct (Nat.eqb_spec xi xn) as [->|Hx].
    + by rewrite list_lookup_insert_eq.
    + by rewrite list_lookup_insert_ne.
  - rewrite list_lookup_insert_ne by done. by rewrite andb_false_r.
Qed.

Lemma shaped_store (w' h' : nat) (g : list Row) (row : Row) (xn yn : nat)
    (r : ref) :
  shaped w' h' g -> g !! yn = Some row -> (xn < w')%nat ->
  shaped w' h' (<[yn := arr_set row (Z.of_nat xn) r]> g).
Proof.
  intros Hs Hrow Hxn.
  pose proof (shaped_lookup _ _ _ _ _ Hs Hrow) as Hl.
  destruct Hs as [Hlen Hf]. split; [by rewrite length_insert|].
  apply Forall_insert; [done|].
  unfold arr_set. destruct (Z.ltb_spec (Z.of_nat xn) 0); [lia|].
  rewrite Nat2Z.id. destruct (Nat.ltb_spec xn (length (elems row))); [|lia].
  cbn [elems]. by rewrite length_insert.
Qed.

Lemma in_bounds_true (w hgt px py : Z) :
  in_bounds w hgt px py = true <-> 0 <= px < w /\ 0 <= py < hgt.
Proof.
  unfold in_bounds. rewrite !andb_true_iff, !Z.leb_le, !Z.ltb_lt. lia.
Qed.

(** The loop of [sortTiles] over tiles that are all within bounds
    succeeds, keeps the shape of the grid, and leaves in each cell the
    last tile that stores the cell's coordinates. *)
Lemma sortTiles_loop_cells {Aux} (h : heap Aux) (w hgt : Z) (rs : list ref) :
  Forall (fun r => in_bounds w hgt (x (deref h r)) (y (deref h r)) = true) rs ->
  forall g, shaped (Z.to_nat w) (Z.to_nat hgt) g ->
  exists g',
    sortTiles_loop h w hgt (map Some rs) g = Ok g'
    /\ shaped (Z.to_nat w) (Z.to_nat hgt) g'
    /\ forall xi yi, cell_at g' xi yi = placed h rs xi yi (cell_at g xi yi).
Proof.
  induction 1 as [|r rs Hr Hrs IH]; intros g Hs.
  - exists g. split; [done|]. by split.
  - cbn [map sortTiles_loop]. rewrite Hr. cbn [negb].
    apply in_bounds_true in Hr as [Hx Hy].
    destruct (row_at g (y (deref h r))) as [row|] eqn:Erow.
    2: { apply row_at_None in Erow. destruct Hs as [Hlen _]. lia. }
    apply row_at_Some in Erow as [_ Erow].
    set (xn := Z.to_nat (x (deref h r))). set (yn := Z.to_nat (y (deref h r))).
    assert (Hxn : x (deref h r) = Z.of_nat xn) by (unfold xn; lia).
    rewrite Hxn. fold yn in Erow.
    assert (Hlt : (xn < Z.to_nat w)%nat) by lia.
    destruct (IH _ (shaped_store _ _ g row xn yn r Hs Erow Hlt))
      as (g' & -> & Hs' & Hc).
    exists g'. split; [done|]. split; [done|].
    intros xi yi. rewrite Hc, (cell_at_store _ _ g row xn yn r xi yi Hs Erow Hlt).
    unfold placed. cbn [fold_left]. f_equal.
    unfold at_cell. rewrite Hxn.
    replace (y (deref h r)) with (Z.of_nat yn) by (unfold yn; lia).
    destruct (Nat.eqb_spec xi xn) as [->|Hne].
    + rewrite Z.eqb_refl. cbn [andb].
      destruct (Nat.eqb_spec yi yn) as [->|Hne]; [by rewrite Z.eqb_refl|].
      destruct (Z.eqb_spec (Z.of_nat yn) (Z.of_nat yi)); [lia | done].
    + destruct (Z.eqb_spec (Z.of_nat xn) (Z.of_nat xi)); [lia | done].
Qed.

Lemma shaped_blank (w' h' : nat) :
  shaped w' h' (replicate h' (mkArray (replicate w' None) [])).
Proof.
  split; [apply length_replicate|].
  apply Forall_replicate. cbn [elems]. apply length_replicate.
Qed.

Lemma cell_at_blank (w' h' xi yi : nat) :
  cell_at (replicate h' (mkArray (replicate w' (@None ref)) [])) xi yi = None.
Proof.
  unfold cell_at.
  destruct (replicate h' _ !! yi) as [row|] eqn:E; [|done].
  apply lookup_replicate in E as [-> _]. cbn [elems].
  destruct (replicate w' None !! xi) as [c|] eqn:E'; [|done].
  by apply lookup_replicate in E' as [-> _].
Qed.

(** [sortTiles] on tiles that are all within bounds. *)
Lemma sortTiles_cells {Aux} (h : heap Aux) (w hgt : Z) (rs : list ref) :
  0 <= w < 2 ^ 32 ->
  Forall (fun r => in_bounds w hgt (x (deref h r)) (y (deref h r)) = true) rs ->
  exists g',
    sortTiles h (map Some rs) w hgt = Ok g'
    /\ shaped (Z.to_nat w) (Z.to_nat hgt) g'
    /\ forall xi yi, cell_at g' xi yi = placed h rs xi yi None.
Proof.
  intros Hw Hrs. unfold sortTiles. rewrite blank_grid_Ok by done.
  cbn [mbind res_bind].
  destruct (sortTiles_loop_cells h w hgt rs Hrs _
              (shaped_blank (Z.to_nat w) (Z.to_nat hgt))) as (g' & -> & Hs & Hc).
  exists g'. split; [done|]. split; [done|].
  intros xi yi. by rewrite Hc, cell_at_blank.
Qed.

Lemma placed_result {Aux} (h : heap Aux) (rs : list ref) (xi yi : nat)
    (init : option ref) (r : ref) :
  placed h rs xi yi init = Some r ->
  init = Some r \/ (r ∈ rs /\ at_cell h xi yi r = true).
Proof.
  unfold placed. revert init. induction rs as [|r' rs IH]; intros init H.
  - by left.
  - cbn [fold_left] in H. apply IH in H as [H|[H1 H2]].
    + destruct (at_cell h xi yi r') eqn:E; [|by left].
      injection H as ->. right. split; [apply list_elem_of_here | done].
    + right. split; [by apply list_elem_of_further | done].
Qed.

(** ** Grids whose tiles store the coordinates of their cells *)

(** Linear arithmetic after the aliases of [nat] and of the row type are
    unfolded, so that lengths of the same list are recognised as equal. *)
Ltac nlia := unfold Row, ref in *; lia.

Lemma placed_app {Aux} (h : heap Aux) (l1 l2 : list ref) (xi yi : nat)
    (acc : option ref) :
  placed h (l1 ++ l2) xi yi acc = placed h l2 xi yi (placed h l1 xi yi acc).
Proof. unfold placed. apply fold_left_app. Qed.

Lemma at_cell_other {Aux} (h : heap Aux) (a b xi yi : nat) (r : ref) :
  at_cell h a b r = true ->
  at_cell h xi yi r = (a =? xi)%nat && (b =? yi)%nat.
Proof.
  intros [Hx Hy]%at_cell_true. unfold at_cell. rewrite Hx, Hy.
  destruct (Nat.eqb_spec a xi) as [->|], (Nat.eqb_spec b yi) as [->|];
    rewrite ?Z.eqb_refl; cbn [andb];
    repeat match goal with
           | |- context [Z.of_nat ?m =? Z.of_nat ?n] =>
               destruct (Z.eqb_spec (Z.of_nat m) (Z.of_nat n)); [lia|]
           end; done.
Qed.

Lemma elem_of_omap_id {A} (cs : list (option A)) (r : A) :
  r ∈ omap id cs <-> exists a, cs !! a = Some (Some r).
Proof.
  rewrite list_elem_of_omap. split.
  - intros (c & Hc & Hid). cbn in Hid. subst c.
    by apply list_elem_of_lookup_1 in Hc.
  - intros (a & Ha). exists (Some r). split; [|done].
    by eapply list_elem_of_lookup_2.
Qed.

Lemma elem_of_unsortTiles (g : list Row) (r : ref) :
  r ∈ unsortTiles g <-> exists xi yi, cell_at g xi yi = Some r.
Proof.
  rewrite unsortTiles_flat_map, list_elem_of_In, in_flat_map. split.
  - intros (row & Hrow%list_elem_of_In & Hr%list_elem_of_In).
    apply list_elem_of_lookup_1 in Hrow as [yi Hyi].
    apply elem_of_omap_id in Hr as [xi Hxi].
    exists xi, yi. apply cell_at_Some. by exists row.
  - intros (xi & yi & (row & Hrow & Hc)%cell_at_Some).
    exists row. split; apply list_elem_of_In.
    + by eapply list_elem_of_lookup_2.
    + apply elem_of_omap_id. by exists xi.
Qed.

(** One row: the last tile storing the coordinates of a cell is the
    tile in that cell. *)
Lemma placed_row {Aux} (h : heap Aux) (cs : list (option ref)) (b xi yi : nat)
    (acc : option ref) :
  (forall a r, cs !! a = Some (Some r) -> at_cell h a b r = true) ->
  placed h (omap id cs) xi yi acc
  = if (b =? yi)%nat
    then match cs !! xi with Some (Some r) => Some r | _ => acc end
    else acc.
Proof.
  induction cs as [|c cs IH] using rev_ind; intros Hm.
  - cbn. by destruct (b =? yi)%nat.
  - rewrite omap_app, placed_app, IH.
    2: { intros a r Ha. apply Hm. by apply lookup_app_l_Some. }
    destruct c as [r|]; cbn [omap list_omap id placed fold_left].
    + assert (Hr : at_cell h (length cs) b r = true).
      { apply Hm. rewrite lookup_app_r by lia. by rewrite Nat.sub_diag. }
      rewrite (at_cell_other h _ _ xi yi r Hr).
      destruct (Nat.eqb_spec b yi) as [->|]; [|by rewrite andb_false_r].
      rewrite andb_true_r. destruct (Nat.eqb_spec (length cs) xi) as [<-|Hne].
      * rewrite lookup_app_r by lia. by rewrite Nat.sub_diag.
      * destruct (Nat.lt_ge_cases xi (length cs)).
        -- by rewrite lookup_app_l.
        -- rewrite (lookup_ge_None_2 cs xi) by lia.
           rewrite lookup_ge_None_2; [done|]. rewrite length_app. cbn. lia.
    + destruct (b =? yi)%nat; [|done].
      destruct (Nat.lt_ge_cases xi (length cs)).
      * by rewrite lookup_app_l.
      * rewrite (lookup_ge_None_2 cs xi) by lia.
        destruct (Nat.eq_dec xi (length cs)) as [->|].
        -- rewrite lookup_app_r by lia. by rewrite Nat.sub_diag.
        -- rewrite lookup_ge_None_2; [done|]. rewrite length_app. cbn. lia.
Qed.

Lemma cell_at_app_l (g : list Row) (row : Row) (xi yi : nat) :
  (yi < length g)%nat -> cell_at (g ++ [row]) xi yi = cell_at g xi yi.
Proof. intros H. unfold cell_at. by rewrite lookup_app_l. Qed.

Lemma cell_at_app_last (g : list Row) (row : Row) (xi : nat) :
  cell_at (g ++ [row]) xi (length g)
  = match elems row !! xi with Some c => c | None => None end.
Proof.
  unfold cell_at. rewrite lookup_app_r by nlia. by rewrite Nat.sub_diag.
Qed.

Lemma cell_at_beyond (g : list Row) (xi yi : nat) :
  (length g <= yi)%nat -> cell_at g xi yi = None.
Proof. intros H. unfold cell_at. by rewrite lookup_ge_None_2. Qed.

Lemma cells_match_app {Aux} (h : heap Aux) (g : list Row) (row : Row) :
  cells_match h (g ++ [row]) ->
  cells_match h g
  /\ forall a r, elems row !! a = Some (Some r) ->
       at_cell h a (length g) r = true.
Proof.
  intros Hm. split.
  - intros xi yi r Hc. apply Hm. rewrite cell_at_app_l; [done|].
    apply cell_at_Some in Hc as (row' & Hrow & _).
    by apply lookup_lt_Some in Hrow.
  - intros a r Ha. apply Hm. by rewrite cell_at_app_last, Ha.
Qed.

Lemma unsortTiles_app (g : list Row) (row : Row) :
  unsortTiles (g ++ [row]) = unsortTiles g ++ omap id (elems row).
Proof.
  rewrite !unsortTiles_flat_map, flat_map_app. cbn [flat_map].
  by rewrite app_nil_r.
Qed.

(** Sorting the tiles of such a grid puts each tile back in its cell. *)
Lemma placed_unsortTiles {Aux} (h : heap Aux) (g : list Row) (xi yi : nat)
    (acc : option ref) :
  cells_match h g ->
  placed h (unsortTiles g) xi yi acc
  = match cell_at g xi yi with Some r => Some r | None => acc end.
Proof.
  induction g as [|row g IH] using rev_ind; intros Hm; [done|].
  apply cells_match_app in Hm as [Hg Hrow].
  rewrite unsortTiles_app, placed_app, IH by done.
  rewrite (placed_row h (elems row) (length g)) by done.
  destruct (Nat.eqb_spec (length g) yi) as [<-|Hne].
  - rewrite cell_at_app_last, (cell_at_beyond g) by lia.
    by destruct (elems row !! xi) as [[r|]|].
  - destruct (Nat.lt_ge_cases yi (length g)).
    + by rewrite cell_at_app_l.
    + rewrite (cell_at_beyond g) by lia.
      rewrite cell_at_beyond; [done|]. rewrite length_app. cbn. lia.
Qed.

Lemma NoDup_row {Aux} (h : heap Aux) (cs : list (option ref)) (b : nat) :
  (forall a r, cs !! a = Some (Some r) -> at_cell h a b r = true) ->
  NoDup (omap id cs).
Proof.
  induction cs as [|c cs IH] using rev_ind; intros Hm; [apply NoDup_nil_2|].
  rewrite omap_app. apply NoDup_app. split; [|split].
  - apply IH. intros a r Ha. apply Hm. by apply lookup_app_l_Some.
  - intros r [a Ha]%elem_of_omap_id Hin.
    destruct c as [r'|]; cbn in Hin; [|by apply elem_of_nil in Hin].
    apply list_elem_of_singleton in Hin as <-.
    assert (H1 : at_cell h a b r = true)
      by (apply Hm; by apply lookup_app_l_Some).
    assert (H2 : at_cell h (length cs) b r = true).
    { apply Hm. rewrite lookup_app_r by lia. by rewrite Nat.sub_diag. }
    apply at_cell_true in H1 as [H1 _]. apply at_cell_true in H2 as [H2 _].
    apply lookup_lt_Some in Ha. lia.
  - destruct c; cbn; [apply NoDup_singleton | apply NoDup_nil_2].
Qed.

(** In such a grid no tile sits in two cells. *)
Lemma NoDup_unsortTiles {Aux} (h : heap Aux) (g : list Row) :
  cells_match h g -> NoDup (unsortTiles g).
Proof.
  induction g as [|row g IH] using rev_ind; intros Hm; [apply NoDup_nil_2|].
  pose proof (cells_match_app h g row Hm) as [Hg Hrow].
  rewrite unsortTiles_app. apply NoDup_app. split; [by apply IH|]. split.
  - intros r (xi & yi & Hc)%elem_of_unsortTiles [a Ha]%elem_of_omap_id.
    pose proof Hc as (row' & Hlt%lookup_lt_Some & _)%cell_at_Some.
    apply Hg, at_cell_true in Hc as [_ H1].
    apply Hrow, at_cell_true in Ha as [_ H2]. nlia.
  - by apply (NoDup_row h _ (length g)).
Qed.

(** ** Running a hook over distinct tiles *)

Lemma fold_update_other {Aux} (f : Tile Aux -> Tile Aux) (l : list ref)
    (h : heap Aux) (r : ref) :
  r ∉ l -> deref (fold_left (fun h r => update r f h) l h) r = deref h r.
Proof.
  revert h. induction l as [|r' l IH]; intros h Hr; [done|].
  apply not_elem_of_cons in Hr as [Hne Hr]. cbn [fold_left].
  rewrite IH by done. cbn [update deref].
  destruct (Nat.eqb_spec r r'); [done | done].
Qed.

Lemma fold_update_once {Aux} (f : Tile Aux -> Tile Aux) (l : list ref)
    (h : heap Aux) (r : ref) :
  NoDup l -> r ∈ l ->
  deref (fold_left (fun h r => update r f h) l h) r = f (deref h r).
Proof.
  revert h. induction l as [|r' l IH]; intros h Hnd Hr.
  - by apply elem_of_nil in Hr.
  - apply NoDup_cons in Hnd as [Hr' Hnd]. cbn [fold_left].
    apply elem_of_cons in Hr as [->|Hr].
    + rewrite fold_update_other by done. cbn [update deref].
      by rewrite Nat.eqb_refl.
    + rewrite IH by done. cbn [update deref].
      destruct (Nat.eqb_spec r r') as [->|]; [done | done].
Qed.


(** ** Round trip: the preamble *)


(** ** Well-formed schematics *)

Lemma grid_shaped_shaped (s : Schematic) :
  grid_shaped s = true ->
  shaped (Z.to_nat (width s)) (Z.to_nat (height s)) (tiles s).
Proof.
  unfold grid_shaped, shaped. rewrite andb_true_iff, Nat.eqb_eq, forallb_forall.
  intros [Hl Hr]. split; [done|]. apply Forall_forall.
  intros row Hrow%list_elem_of_In. by apply Nat.eqb_eq, Hr.
Qed.

Lemma tiles_valid_cell {Aux} (h : heap Aux) (s : Schematic) (xi yi : nat)
    (r : ref) :
  grid_shaped s = true -> tiles_valid h s = true ->
  cell_at (tiles s) xi yi = Some r ->
  tile_ok (deref h r) xi yi = true
  /\ (xi < Z.to_nat (width s))%nat /\ (yi < Z.to_nat (height s))%nat.
Proof.
  intros Hs%grid_shaped_shaped Hv Hc.
  pose proof (cell_at_shaped _ _ _ _ _ _ Hs Hc) as [Hx Hy].
  split; [|done]. unfold tiles_valid in Hv. rewrite forallb_forall in Hv.
  specialize (Hv yi ltac:(apply in_seq; lia)). rewrite forallb_forall in Hv.
  specialize (Hv xi ltac:(apply in_seq; lia)). by rewrite Hc in Hv.
Qed.

Lemma tile_ok_spec {Aux} (t : Tile Aux) (xi yi : nat) :
  tile_ok t xi yi = true ->
  x t = Z.of_nat xi /\ y t = Z.of_nat yi /\ 0 <= rotation t <= 3
  /\ no_block (Some (name t)) = false /\ byte_length (name t) < 65536.
Proof.
  unfold tile_ok. rewrite !andb_true_iff, negb_true_iff.
  rewrite !Z.eqb_eq, !Z.leb_le, Z.ltb_lt. tauto.
Qed.

Lemma tiles_valid_match {Aux} (h : heap Aux) (s : Schematic) :
  grid_shaped s = true -> tiles_valid h s = true -> cells_match h (tiles s).
Proof.
  intros Hs Hv xi yi r Hc.
  destruct (tiles_valid_cell h s xi yi r Hs Hv Hc) as [Hok _].
  apply tile_ok_spec in Hok as (Hx & Hy & _). by apply at_cell_true.
Qed.

Lemma length_omap_id {A} (cs : list (option A)) :
  (length (omap id cs) <= length cs)%nat.
Proof.
  induction cs as [|[a|] cs IH]; cbn [omap list_omap id length] in *; lia.
Qed.

Lemma length_unsortTiles (w' h' : nat) (g : list Row) :
  shaped w' h' g -> (length (unsortTiles g) <= h' * w')%nat.
Proof.
  intros [<- Hf]. induction Hf as [|row g Hrow _ IH]; [done|].
  change (unsortTiles (row :: g)) with (omap id (elems row ++ concat (map elems g))).
  rewrite omap_app, length_app. fold (unsortTiles g).
  pose proof (length_omap_id (elems row)). cbn [length]. nlia.
Qed.


(** ** Comparing grids cell by cell *)



(** ** Round trip *)







(** ** The invariant of the grid, operation by operation *)

Lemma sortTiles_loop_Ok {Aux} (h : heap Aux) (w hgt : Z)
    (tl : list (option ref)) (g g' : list Row) :
  sortTiles_loop h w hgt tl g = Ok g' ->
  exists rs, tl = map Some rs
    /\ Forall (fun r => in_bounds w hgt (x (deref h r)) (y (deref h r)) = true) rs.
Proof.
  revert g. induction tl as [|[r|] tl IH]; intros g H.
  - by exists [].
  - cbn [sortTiles_loop] in H.
    destruct (in_bounds w hgt _ _) eqn:E; [|done]. cbn [negb] in H.
    destruct (row_at g _); [|done].
    apply IH in H as (rs & -> & Hrs). exists (r :: rs). split; [done|].
    by constructor.
  - done.
Qed.

(** What [sortTiles] returns has the declared shape, and each of its
    tiles stores the coordinates of its cell. *)
Lemma sortTiles_invariant {Aux} (h : heap Aux) (tl : list (option ref))
    (w hgt : Z) (g : list Row) :
  sortTiles h tl w hgt = Ok g ->
  shaped (Z.to_nat w) (Z.to_nat hgt) g /\ cells_match h g.
Proof.
  unfold sortTiles, blank_grid. destruct (_ && _); [done|].
  cbn [mbind res_bind]. intros H.
  pose proof (sortTiles_loop_Ok _ _ _ _ _ _ H) as (rs & -> & Hrs).
  destruct (sortTiles_loop_cells h w hgt rs Hrs _
              (shaped_blank (Z.to_nat w) (Z.to_nat hgt))) as (g' & Hg' & Hs & Hc).
  rewrite H in Hg'. injection Hg' as <-. split; [done|].
  intros xi yi r Hr. rewrite Hc, cell_at_blank in Hr.
  by apply placed_result in Hr as [Hr | [_ Hr]].
Qed.

(** [setTileAt] within the bounds, with a tile that is not yet in the
    grid, keeps the shape and the coordinates in step. *)
Lemma setTileAt_keeps_invariant {Aux} (s : Schematic) (x' y' : Z) (tile : ref)
    (h : heap Aux) :
  shaped (Z.to_nat (width s)) (Z.to_nat (height s)) (tiles s) ->
  cells_match h (tiles s) ->
  0 <= x' < width s -> 0 <= y' < height s ->
  tile ∉ unsortTiles (tiles s) ->
  exists s',
    setTileAt s x' y' tile h = (Ok s', update tile (set_pos x' y') h)
    /\ shaped (Z.to_nat (width s')) (Z.to_nat (height s')) (tiles s')
    /\ cells_match (update tile (set_pos x' y') h) (tiles s').
Proof.
  intros Hs Hm Hx Hy Hfresh. unfold setTileAt.
  destruct (row_at (tiles s) y') as [row|] eqn:E.
  2: { apply row_at_None in E. destruct Hs as [Hl _]. nlia. }
  apply row_at_Some in E as [_ E].
  eexists. split; [reflexivity|]. cbn [width height tiles].
  replace x' with (Z.of_nat (Z.to_nat x')) by lia.
  assert (Hlt : (Z.to_nat x' < Z.to_nat (width s))%nat) by lia.
  split; [by apply shaped_store|].
  intros xi yi r Hr. rewrite (cell_at_store _ _ _ _ _ _ _ xi yi Hs E Hlt) in Hr.
  unfold at_cell. cbn [update deref].
  destruct (Nat.eqb_spec xi (Z.to_nat x')) as [->|Hne],
           (Nat.eqb_spec yi (Z.to_nat y')) as [->|Hne']; cbn [andb] in Hr.
  - injection Hr as <-. rewrite Nat.eqb_refl. cbn [set_pos x y].
    rewrite !Z.eqb_refl. cbn [andb].
    apply Z.eqb_eq. lia.
  - assert (r <> tile).
    { intros ->. apply Hfresh, elem_of_unsortTiles. by exists (Z.to_nat x'), yi. }
    destruct (Nat.eqb_spec r tile); [done|]. by apply Hm.
  - assert (r <> tile).
    { intros ->. apply Hfresh, elem_of_unsortTiles. by exists xi, (Z.to_nat y'). }
    destruct (Nat.eqb_spec r tile); [done|]. by apply Hm.
  - assert (r <> tile).
    { intros ->. apply Hfresh, elem_of_unsortTiles. by exists xi, yi. }
    destruct (Nat.eqb_spec r tile); [done|]. by apply Hm.
Qed.

(** Tiles are shared objects: moving a tile that is already in the grid
    leaves it in its old cell too, where its stored coordinates are now
    those of the new cell. *)
Lemma setTileAt_moves_shared_tile :
  exists s',
    setTileAt two_by_two 0 1 0%nat three_tiles
    = (Ok s', update 0%nat (set_pos 0 1) three_tiles)
    /\ cell_at (tiles s') 0 0 = Some 0%nat
    /\ cell_at (tiles s') 0 1 = Some 0%nat
    /\ at_cell (update 0%nat (set_pos 0 1) three_tiles) 0 0 0%nat = false.
Proof. eexists. by repeat split. Qed.

(** The bound [read] does test: a record whose coordinate is at or
    beyond the width or the height, with a valid rotation, makes [read]
    return the out-of-bounds error. Stated for the first record. *)
Lemma read_rejects_beyond_bounds {Aux} (P : Platform Aux)
    (rest data d0 d1 : cursor) (h : heap Aux) (w hgt n : Z)
    tags labels blocks (id px py rot : Z) (cfg : BlockConfig) :
  inflateSync P rest = Some data ->
  read_preamble P data = Ok ((w, hgt, tags, labels, blocks, n), d0) ->
  0 < n <= w * hgt ->
  read_record P d0 = Ok ((id, px, py, cfg, rot), d1) ->
  0 <= rot <= 3 -> w <= px \/ hgt <= py ->
  read P (magic ++ rest) h = Err (InvalidPosition px py w hgt).
Proof.
  intros Hi Hp Hn Hrec Hrot Hout.
  rewrite read_magic, Hi.
  rewrite (read_payload_step P data d0 h w hgt n tags labels blocks) by (done || lia).
  replace (Z.to_nat n) with (S (Z.to_nat n - 1)) by lia.
  cbn [readTiles]. rewrite Hrec. cbn [mbind res_bind].
  rewrite rotation_valid by done. cbn [negb].
  destruct (Z.ltb_spec px w), (Z.ltb_spec py hgt); try done; lia.
Qed.

(** ** Where the round trip stops *)

(** A schematic wider than 128 cells is written but not read back. *)
Lemma round_trip_too_wide :
  read reference (fst (write reference too_wide empty_heap)) empty_heap
  = Err TooLarge.
Proof. vm_compute. reflexivity. Qed.

(** A tile named ["air"] is written, and reading the file throws. *)
Lemma round_trip_air_tile :
  read reference (fst (write reference one_tile one_air)) empty_heap
  = Thrown TypeError.
Proof. vm_compute. reflexivity. Qed.

(** [write] emits the block index with [writeUInt8] and [read] takes it
    with [readInt8]: with more than 128 distinct block names the indices
    from 128 on come back negative, name no block, and reading throws. *)
Lemma round_trip_many_names :
  tiles_valid distinct_names full_grid = true
  /\ length (fst (getBlockMap distinct_names (unsortTiles (tiles full_grid))))
     = 130%nat
  /\ read reference (fst (write reference full_grid distinct_names)) empty_heap
     = Thrown TypeError.
Proof. vm_compute. by repeat split. Qed.

(** ** Coordinate packing, the other way round *)

Lemma to_signed_mod (u : Z) :
  0 <= u < 2 ^ 16 -> to_signed 16 u mod 2 ^ 16 = u.
Proof.
  intros Hu. unfold to_signed. change (2 ^ (16 - 1)) with 32768.
  change (2 ^ 16) with 65536 in *.
  destruct (Z.ltb_spec u 32768).
  - apply Z.mod_small. lia.
  - rewrite <- (Z.mod_add _ 1) by lia.
    replace (u - 65536 + 1 * 65536) with u by lia. apply Z.mod_small. lia.
Qed.

Lemma to_signed_range (u : Z) :
  0 <= u < 2 ^ 16 -> - 2 ^ 15 <= to_signed 16 u < 2 ^ 15.
Proof.
  intros Hu. unfold to_signed. change (2 ^ (16 - 1)) with 32768.
  change (2 ^ 16) with 65536 in *. change (2 ^ 15) with 32768.
  destruct (Z.ltb_spec u 32768); lia.
Qed.

(** Every 32-bit integer is the packing of the pair it unpacks to. *)
Lemma Point2_pack_unpack (pos : Z) :
  - 2 ^ 31 <= pos < 2 ^ 31 ->
  Point2.supported (fst (Point2.unpack pos)) (snd (Point2.unpack pos))
  /\ Point2.pack (fst (Point2.unpack pos)) (snd (Point2.unpack pos)) = pos.
Proof.
  intros Hp. unfold Point2.unpack. cbn [fst snd].
  change 65535 with (Z.ones 16). rewrite !Z.land_ones, Z.shiftr_div_pow2 by lia.
  change (2 ^ 31) with 2147483648 in Hp.
  assert (H16 : 2 ^ 16 = 65536) by reflexivity.
  assert (Hlo : 0 <= pos mod 2 ^ 16 < 2 ^ 16) by (apply Z.mod_pos_bound; lia).
  assert (Hhi : - 32768 <= pos / 2 ^ 16 < 32768).
  { rewrite H16. split.
    - apply Z.div_le_lower_bound; lia.
    - apply Z.div_lt_upper_bound; lia. }
  assert (Hq : to_signed 16 ((pos / 2 ^ 16) mod 2 ^ 16) = pos / 2 ^ 16).
  { apply to_signed_wrap; [lia|]. change (2 ^ (16 - 1)) with 32768. lia. }
  rewrite Hq.
  assert (Hs : Point2.supported (pos / 2 ^ 16) (to_signed 16 (pos mod 2 ^ 16))).
  { split; [change (2 ^ 15) with 32768; lia | by apply to_signed_range]. }
  split; [done|].
  rewrite Point2_pack_value by done.
  change 65536 with (2 ^ 16). rewrite to_signed_mod by done.
  pose proof (Z.div_mod pos (2 ^ 16) ltac:(lia)). lia.
Qed.

(** * Further properties of [Schematic.read] *)

Lemma readUInt8_cons (b : byte) (c : cursor) :
  readUInt8 (b :: c) = Ok (Z_of_byte b, c).
Proof. reflexivity. Qed.

Lemma readInt8_cons (b : byte) (c : cursor) :
  readInt8 (b :: c) = Ok (to_signed 8 (Z_of_byte b), c).
Proof. reflexivity. Qed.

Lemma Z_of_byte_inj (a b : byte) : Z_of_byte a = Z_of_byte b -> a = b.
Proof.
  intros H. rewrite <- (byte_of_Z_of_byte a), <- (byte_of_Z_of_byte b).
  by rewrite H.
Qed.

Lemma check_header_cons (char : Z) (chars : list Z) (b : byte) (c : cursor) :
  check_header (char :: chars) (b :: c)
  = if Z_of_byte b =? char then check_header chars c else Err NotSchematic.
Proof.
  cbn [check_header]. rewrite readUInt8_cons. cbn [mbind res_bind].
  by destruct (Z_of_byte b =? char).
Qed.

(** X1. A buffer of at least four bytes that does not start with the
    bytes of ["msch"] is refused with the not-a-schematic error, before
    anything else of it is looked at. *)
Theorem X1_bad_magic {Aux} (P : Platform Aux) (input : list byte)
    (h : heap Aux) :
  (4 <= length input)%nat -> take 4 input <> magic4 ->
  read P input h = Err NotSchematic.
Proof.
  intros Hl Hne.
  destruct input as [|b0 [|b1 [|b2 [|b3 rest]]]]; cbn [length] in Hl; try lia.
  unfold read, headerBytes. cbn [map]. rewrite !check_header_cons.
  destruct (Z.eqb_spec (Z_of_byte b0) (Z.of_N (Ascii.N_of_ascii "m"))) as [E0|]; [|done].
  destruct (Z.eqb_spec (Z_of_byte b1) (Z.of_N (Ascii.N_of_ascii "s"))) as [E1|]; [|done].
  destruct (Z.eqb_spec (Z_of_byte b2) (Z.of_N (Ascii.N_of_ascii "c"))) as [E2|]; [|done].
  destruct (Z.eqb_spec (Z_of_byte b3) (Z.of_N (Ascii.N_of_ascii "h"))) as [E3|]; [|done].
  exfalso. apply Hne. cbn [take].
  apply (Z_of_byte_inj b0 "m"%byte) in E0. apply (Z_of_byte_inj b1 "s"%byte) in E1.
  apply (Z_of_byte_inj b2 "c"%byte) in E2. apply (Z_of_byte_inj b3 "h"%byte) in E3.
  by subst.
Qed.

Lemma X1_bad_magic_witness :
  read reference [x6d; x73; x63; x69; x01; x00] empty_heap = Err NotSchematic.
Proof.
  apply (X1_bad_magic reference [x6d; x73; x63; x69; x01; x00] empty_heap).
  - simpl. lia.
  - discriminate.
Defined.

(** X2. After the magic, any version byte other than 1 is refused with
    the unknown-version error, which carries the byte read as a signed
    number; the rest of the buffer is not inflated. *)
Theorem X2_unknown_version {Aux} (P : Platform Aux) (b : byte)
    (rest : list byte) (h : heap Aux) :
  Z_of_byte b <> 1 ->
  read P (magic4 ++ b :: rest) h
  = Err (UnknownVersion (to_signed 8 (Z_of_byte b))).
Proof.
  intros Hb. unfold read.
  change (check_header headerBytes (magic4 ++ b :: rest)) with (@Ok cursor (b :: rest)).
  cbn [mbind res_bind]. rewrite readInt8_cons. cbn [mbind res_bind].
  pose proof (Z_of_byte_range b) as Hr.
  destruct (Z.eqb_spec (to_signed 8 (Z_of_byte b)) 1) as [E|]; [|done].
  exfalso. unfold to_signed in E. change (2 ^ (8 - 1)) with 128 in E.
  change (2 ^ 8) with 256 in E. destruct (Z.ltb_spec (Z_of_byte b) 128); lia.
Qed.

Lemma X2_unknown_version_witness :
  read reference (magic4 ++ [xff; x00]) empty_heap = Err (UnknownVersion (-1)).
Proof.
  apply (X2_unknown_version reference xff [x00] empty_heap). discriminate.
Defined.

(** X3. A declared width or height above 128 is refused with the
    too-large error as soon as the two sizes are read: tags, block names
    and tiles are not looked at. *)
Theorem X3_too_large {Aux} (P : Platform Aux) (rest data d1 d2 : cursor)
    (h : heap Aux) (w hgt : Z) :
  inflateSync P rest = Some data ->
  readUInt16BE data = Ok (w, d1) -> readUInt16BE d1 = Ok (hgt, d2) ->
  128 < w \/ 128 < hgt ->
  read P (magic ++ rest) h = Err TooLarge.
Proof.
  intros Hi Hw Hh Hbig. rewrite read_magic, Hi.
  unfold read_payload, read_preamble. rewrite Hw. cbn [mbind res_bind].
  rewrite Hh. cbn [mbind res_bind].
  destruct (Z.ltb_spec 128 w), (Z.ltb_spec 128 hgt); try done. lia.
Qed.

Lemma X3_too_large_witness :
  read reference (magic ++ deflateSync reference wide_payload) empty_heap
  = Err TooLarge.
Proof.
  apply (X3_too_large reference _ wide_payload (writeUInt16BE 1) []
           empty_heap 129 1).
  - vm_compute. reflexivity.
  - vm_compute. reflexivity.
  - vm_compute. reflexivity.
  - lia.
Defined.

(** X4. A negative declared tile count makes [read] throw: the array of
    tiles is allocated with that length before the count is compared
    with [width * height]. *)
Theorem X4_negative_count_throws {Aux} (P : Platform Aux)
    (rest data d' : cursor) (h : heap Aux) (w hgt n : Z) tags labels blocks :
  inflateSync P rest = Some data ->
  read_preamble P data = Ok ((w, hgt, tags, labels, blocks, n), d') ->
  n < 0 ->
  read P (magic ++ rest) h = Thrown RangeError.
Proof.
  intros Hi Hp Hn. rewrite read_magic, Hi. unfold read_payload.
  rewrite Hp. cbn [mbind res_bind]. by destruct (Z.ltb_spec n 0); [|lia].
Qed.

Lemma X4_negative_count_throws_witness :
  read reference (magic ++ deflateSync reference (count_payload (-1)))
       empty_heap
  = Thrown RangeError.
Proof.
  apply (X4_negative_count_throws reference _ (count_payload (-1)) []
           empty_heap 1 1 (-1) [] (JArray []) []).
  - vm_compute. reflexivity.
  - vm_compute. reflexivity.
  - lia.
Defined.

(** X5. The rotation is validated before the position: a record whose
    rotation is not 0, 1, 2 or 3 makes [read] return the invalid-rotation
    error, whatever its coordinate and block. Stated for the first
    record. *)
Theorem X5_invalid_rotation {Aux} (P : Platform Aux)
    (rest data d0 d1 : cursor) (h : heap Aux) (w hgt n : Z)
    tags labels blocks (id px py rot : Z) (cfg : BlockConfig) :
  inflateSync P rest = Some data ->
  read_preamble P data = Ok ((w, hgt, tags, labels, blocks, n), d0) ->
  0 < n <= w * hgt ->
  read_record P d0 = Ok ((id, px, py, cfg, rot), d1) ->
  rot < 0 \/ 3 < rot ->
  read P (magic ++ rest) h = Err (InvalidRotation rot).
Proof.
  intros Hi Hp Hn Hrec Hrot.
  rewrite read_magic, Hi.
  rewrite (read_payload_step P data d0 h w hgt n tags labels blocks) by (done || lia).
  replace (Z.to_nat n) with (S (Z.to_nat n - 1)) by lia.
  cbn [readTiles]. rewrite Hrec. cbn [mbind res_bind].
  assert (Hr : existsb (Z.eqb rot) [0; 1; 2; 3] = false).
  { cbn [existsb].
    destruct (Z.eqb_spec rot 0), (Z.eqb_spec rot 1), (Z.eqb_spec rot 2),
      (Z.eqb_spec rot 3); done || lia. }
  by rewrite Hr.
Qed.

Lemma X5_invalid_rotation_witness :
  read reference
    (magic ++ deflateSync reference (record_payload (Point2.pack 7 7) 4))
    empty_heap
  = Err (InvalidRotation 4).
Proof.
  apply (X5_invalid_rotation reference _
           (record_payload (Point2.pack 7 7) 4)
           (writeUInt8 0 ++ writeInt32BE (Point2.pack 7 7)
            ++ TypeIO.writeObject CNull ++ writeUInt8 4)
           [] empty_heap 1 1 1 [] (JArray []) ["copper-wall"%string]
           0 7 7 4 CNull).
  all: try (vm_compute; reflexivity).
  all: lia.
Defined.

(** X6. A record with a valid rotation whose coordinate is at or beyond
    the width or the height makes [read] return the out-of-bounds error
    with the coordinate and the size. Stated for the first record. *)
Theorem X6_beyond_bounds {Aux} (P : Platform Aux)
    (rest data d0 d1 : cursor) (h : heap Aux) (w hgt n : Z)
    tags labels blocks (id px py rot : Z) (cfg : BlockConfig) :
  inflateSync P rest = Some data ->
  read_preamble P data = Ok ((w, hgt, tags, labels, blocks, n), d0) ->
  0 < n <= w * hgt ->
  read_record P d0 = Ok ((id, px, py, cfg, rot), d1) ->
  0 <= rot <= 3 -> w <= px \/ hgt <= py ->
  read P (magic ++ rest) h = Err (InvalidPosition px py w hgt).
Proof.
  intros Hi Hp Hn Hrec Hrot Hout.
  rewrite read_magic, Hi.
  rewrite (read_payload_step P data d0 h w hgt n tags labels blocks) by (done || lia).
  replace (Z.to_nat n) with (S (Z.to_nat n - 1)) by lia.
  cbn [readTiles]. rewrite Hrec. cbn [mbind res_bind].
  rewrite rotation_valid by done. cbn [negb].
  destruct (Z.ltb_spec px w), (Z.ltb_spec py hgt); try done; lia.
Qed.

Lemma X6_beyond_bounds_witness :
  read reference
    (magic ++ deflateSync reference (record_payload (Point2.pack 0 1) 0))
    empty_heap
  = Err (InvalidPosition 0 1 1 1).
Proof.
  apply (X6_beyond_bounds reference _
           (record_payload (Point2.pack 0 1) 0)
           (writeUInt8 0 ++ writeInt32BE (Point2.pack 0 1)
            ++ TypeIO.writeObject CNull ++ writeUInt8 0)
           [] empty_heap 1 1 1 [] (JArray []) ["copper-wall"%string]
           0 0 1 0 CNull).
  all: try (vm_compute; reflexivity).
  all: lia.
Defined.

(** X7. Without a [labels] tag, or with one whose text [JSON.parse]
    refuses, a decode that succeeds has the empty list as labels. *)
Theorem X7_labels_fallback {Aux} (P : Platform Aux) (input : list byte)
    (h h' : heap Aux) (s : Schematic) :
  read P input h = Ok (s, h') ->
  (obj_get (tags s) "labels" = None /\ JSON_parse P "undefined" = None)
  \/ (exists v, obj_get (tags s) "labels" = Some v /\ JSON_parse P v = None) ->
  labels s = JArray [].
Proof.
  intros H Hc. rewrite (read_labels _ _ _ _ _ H). unfold parse_labels.
  destruct Hc as [[-> ->] | (v & -> & ->)]; done.
Qed.

Lemma X7_labels_fallback_witness :
  labels (mkSchematic 0 0 1 [("labels", "[oops")%string] (JArray []) [])
  = JArray [].
Proof.
  apply (X7_labels_fallback reference
           (magic ++ deflateSync reference (labels_payload "[oops"))
           empty_heap empty_heap).
  - vm_compute. reflexivity.
  - right. exists "[oops"%string. split; reflexivity.
Defined.

(** * Further properties of [sortTiles] and [unsortTiles] *)

Lemma arr_set_props {T} (a : jsarray T) (i : Z) (v : T) :
  0 <= i -> props (arr_set a i v) = props a.
Proof.
  intros Hi. unfold arr_set. destruct (Z.ltb_spec i 0); [lia|].
  by destruct (_ <? _)%nat.
Qed.

Lemma sortTiles_loop_plain {Aux} (h : heap Aux) (w hgt : Z)
    (tl : list (option ref)) (g g' : list Row) :
  sortTiles_loop h w hgt tl g = Ok g' -> plain g -> plain g'.
Proof.
  revert g. induction tl as [|[r|] tl IH]; intros g H Hp.
  - by injection H as <-.
  - cbn [sortTiles_loop] in H.
    destruct (in_bounds w hgt _ _) eqn:E; [|done]. cbn [negb] in H.
    apply in_bounds_true in E as [Hx Hy].
    destruct (row_at g _) as [row|] eqn:Er; [|done].
    apply row_at_Some in Er as [_ Er].
    apply (IH _ H). apply Forall_insert; [done|].
    rewrite arr_set_props by lia.
    unfold plain in Hp. rewrite Forall_forall in Hp. apply Hp.
    by eapply list_elem_of_lookup_2.
  - done.
Qed.

Lemma sortTiles_plain {Aux} (h : heap Aux) (tl : list (option ref))
    (w hgt : Z) (g : list Row) :
  sortTiles h tl w hgt = Ok g -> plain g.
Proof.
  unfold sortTiles, blank_grid. destruct (_ && _); [done|].
  cbn [mbind res_bind]. intros H. apply (sortTiles_loop_plain _ _ _ _ _ _ H).
  by apply Forall_replicate.
Qed.

(** Two plain grids of the same shape with the same cells are equal. *)
Lemma grid_ext (w' h' : nat) (g1 g2 : list Row) :
  shaped w' h' g1 -> shaped w' h' g2 -> plain g1 -> plain g2 ->
  (forall xi yi, cell_at g1 xi yi = cell_at g2 xi yi) -> g1 = g2.
Proof.
  intros Hs1 Hs2 Hp1 Hp2 Hc. apply list_eq. intros yi.
  destruct (g1 !! yi) as [r1|] eqn:E1, (g2 !! yi) as [r2|] eqn:E2.
  - f_equal.
    pose proof (shaped_lookup _ _ _ _ _ Hs1 E1) as L1.
    pose proof (shaped_lookup _ _ _ _ _ Hs2 E2) as L2.
    unfold plain in *. rewrite Forall_forall in Hp1, Hp2.
    pose proof (Hp1 r1 (list_elem_of_lookup_2 _ _ _ E1)) as P1.
    pose proof (Hp2 r2 (list_elem_of_lookup_2 _ _ _ E2)) as P2.
    destruct r1 as [e1 p1], r2 as [e2 p2]. cbn [props elems] in *. subst p1 p2.
    f_equal. apply list_eq. intros xi. specialize (Hc xi yi).
    unfold cell_at in Hc. unfold Row in *. rewrite E1, E2 in Hc. cbn [elems] in Hc.
    destruct (e1 !! xi) as [c1|] eqn:C1, (e2 !! xi) as [c2|] eqn:C2.
    + by rewrite Hc.
    + apply lookup_lt_Some in C1. apply lookup_ge_None in C2. nlia.
    + apply lookup_ge_None in C1. apply lookup_lt_Some in C2. nlia.
    + done.
  - apply lookup_lt_Some in E1. apply lookup_ge_None in E2.
    destruct Hs1 as [L1 _], Hs2 as [L2 _]. nlia.
  - apply lookup_ge_None in E1. apply lookup_lt_Some in E2.
    destruct Hs1 as [L1 _], Hs2 as [L2 _]. nlia.
  - done.
Qed.

Lemma placed_none {Aux} (h : heap Aux) (rs : list ref) (xi yi : nat)
    (init : option ref) :
  Forall (fun r => at_cell h xi yi r = false) rs ->
  placed h rs xi yi init = init.
Proof.
  intros Hall. unfold placed. revert init.
  induction Hall as [|r rs Hr _ IH]; intros init; [done|].
  cbn [fold_left]. by rewrite Hr, IH.
Qed.

(** The cell of a tile that no later tile of the list shares. *)
Lemma placed_last {Aux} (h : heap Aux) (rs1 rs2 : list ref) (r : ref)
    (xi yi : nat) (init : option ref) :
  at_cell h xi yi r = true ->
  Forall (fun r' => at_cell h xi yi r' = false) rs2 ->
  placed h (rs1 ++ r :: rs2) xi yi init = Some r.
Proof.
  intros Hr Hrs. rewrite placed_app. unfold placed at 1. cbn [fold_left].
  rewrite Hr. by apply placed_none.
Qed.

Lemma at_cell_own {Aux} (h : heap Aux) (r : ref) :
  0 <= x (deref h r) -> 0 <= y (deref h r) ->
  at_cell h (Z.to_nat (x (deref h r))) (Z.to_nat (y (deref h r))) r = true.
Proof. intros Hx Hy. apply at_cell_true. lia. Qed.

Lemma apart_at_cell {Aux} (h : heap Aux) (r r' : ref) :
  0 <= x (deref h r) -> 0 <= y (deref h r) -> apart h r' r ->
  at_cell h (Z.to_nat (x (deref h r))) (Z.to_nat (y (deref h r))) r' = false.
Proof.
  intros Hx Hy Ha. destruct (at_cell _ _ _ r') eqn:E; [|done].
  apply at_cell_true in E as [E1 E2]. unfold apart in Ha. lia.
Qed.

(** X8. When several tiles of the list store the same coordinates,
    [sortTiles] leaves the last of them in the cell: a tile that no
    later tile of the list shares its coordinates with occupies its
    cell in the result. *)
Theorem X8_sortTiles_last_wins {Aux} (h : heap Aux) (w hgt : Z)
    (rs1 rs2 : list ref) (r : ref) :
  0 <= w < 2 ^ 32 ->
  Forall (inside h w hgt) (rs1 ++ r :: rs2) ->
  Forall (fun r' => apart h r' r) rs2 ->
  exists g,
    sortTiles h (map Some (rs1 ++ r :: rs2)) w hgt = Ok g
    /\ cell_at g (Z.to_nat (x (deref h r))) (Z.to_nat (y (deref h r))) = Some r.
Proof.
  intros Hw Hin Hap.
  destruct (sortTiles_cells h w hgt _ Hw Hin) as (g & Hg & _ & Hc).
  exists g. split; [done|]. rewrite Hc.
  assert (Hr : inside h w hgt r).
  { rewrite Forall_forall in Hin. apply Hin, elem_of_app. right.
    apply list_elem_of_here. }
  apply in_bounds_true in Hr as [Hx Hy].
  apply placed_last; [apply at_cell_own; lia|].
  eapply Forall_impl; [exact Hap|]. intros r' Hr'. cbn beta in Hr'.
  apply apart_at_cell; (done || lia).
Qed.

Lemma X8_sortTiles_last_wins_witness :
  exists g,
    sortTiles stacked (map Some ([0%nat] ++ 1%nat :: [2%nat])) 2 1 = Ok g
    /\ cell_at g (Z.to_nat (x (deref stacked 1%nat)))
               (Z.to_nat (y (deref stacked 1%nat))) = Some 1%nat.
Proof.
  apply (X8_sortTiles_last_wins stacked 2 1 [0%nat] [2%nat] 1%nat).
  - lia.
  - repeat constructor.
  - constructor; [left; discriminate | constructor].
Defined.

Lemma sortTiles_loop_app {Aux} (h : heap Aux) (w hgt : Z) (rs : list ref)
    (tl : list (option ref)) :
  Forall (inside h w hgt) rs ->
  forall g, shaped (Z.to_nat w) (Z.to_nat hgt) g ->
  exists g1, shaped (Z.to_nat w) (Z.to_nat hgt) g1
    /\ sortTiles_loop h w hgt (map Some rs ++ tl) g
       = sortTiles_loop h w hgt tl g1.
Proof.
  induction 1 as [|r rs Hr Hrs IH]; intros g Hs.
  - by exists g.
  - cbn [map app sortTiles_loop]. unfold inside in Hr. rewrite Hr. cbn [negb].
    apply in_bounds_true in Hr as [Hx Hy].
    destruct (row_at g (y (deref h r))) as [row|] eqn:Erow.
    2: { apply row_at_None in Erow. destruct Hs as [Hlen _]. nlia. }
    apply row_at_Some in Erow as [_ Erow].
    apply IH.
    replace (x (deref h r)) with (Z.of_nat (Z.to_nat (x (deref h r)))) by lia.
    apply (shaped_store _ _ g row); (done || lia).
Qed.

(** X9. [sortTiles] throws on the first tile of the list whose stored
    coordinates are outside the grid, with the invalid-position message
    for that tile; the tiles after it are not looked at. *)
Theorem X9_sortTiles_first_outside {Aux} (h : heap Aux) (w hgt : Z)
    (rs : list ref) (r : ref) (tl : list (option ref)) :
  0 <= w < 2 ^ 32 ->
  Forall (inside h w hgt) rs ->
  in_bounds w hgt (x (deref h r)) (y (deref h r)) = false ->
  sortTiles h (map Some rs ++ Some r :: tl) w hgt
  = Thrown (Failure (InvalidPosition (x (deref h r)) (y (deref h r)) w hgt)).
Proof.
  intros Hw Hrs Hr. unfold sortTiles. rewrite blank_grid_Ok by done.
  cbn [mbind res_bind].
  destruct (sortTiles_loop_app h w hgt rs (Some r :: tl) Hrs _
              (shaped_blank (Z.to_nat w) (Z.to_nat hgt))) as (g1 & _ & ->).
  cbn [sortTiles_loop]. by rewrite Hr.
Qed.

Lemma X9_sortTiles_first_outside_witness :
  sortTiles stray (map Some [0%nat] ++ Some 1%nat :: [None]) 2 2
  = Thrown (Failure (InvalidPosition (x (deref stray 1%nat))
                                     (y (deref stray 1%nat)) 2 2)).
Proof.
  apply (X9_sortTiles_first_outside stray 2 2 [0%nat] 1%nat [None]).
  - lia.
  - repeat constructor.
  - reflexivity.
Defined.

Lemma cells_match_inside {Aux} (h : heap Aux) (w hgt : Z) (g : list Row) :
  shaped (Z.to_nat w) (Z.to_nat hgt) g -> cells_match h g ->
  Forall (inside h w hgt) (unsortTiles g).
Proof.
  intros Hs Hm. apply Forall_forall. intros r (xi & yi & Hc)%elem_of_unsortTiles.
  destruct (cell_at_shaped _ _ _ _ _ _ Hs Hc) as [Hx Hy].
  apply Hm, at_cell_true in Hc as [Hcx Hcy].
  apply in_bounds_true. lia.
Qed.

(** The tiles of what [sortTiles] returns are tiles of its input. *)
Lemma sortTiles_subset {Aux} (h : heap Aux) (tl : list (option ref))
    (w hgt : Z) (g : list Row) :
  sortTiles h tl w hgt = Ok g ->
  forall r, r ∈ unsortTiles g -> Some r ∈ tl.
Proof.
  intros H r (xi & yi & Hc)%elem_of_unsortTiles.
  unfold sortTiles, blank_grid in H. destruct (_ && _); [done|].
  cbn [mbind res_bind] in H.
  pose proof (sortTiles_loop_Ok _ _ _ _ _ _ H) as (rs & -> & Hrs).
  destruct (sortTiles_loop_cells h w hgt rs Hrs _
              (shaped_blank (Z.to_nat w) (Z.to_nat hgt))) as (g' & Hg' & _ & Hcells).
  rewrite H in Hg'. injection Hg' as <-.
  rewrite Hcells, cell_at_blank in Hc.
  apply placed_result in Hc as [Hc | [Hc _]]; [done|].
  apply list_elem_of_In, in_map. by apply list_elem_of_In.
Qed.

(** X10. What [sortTiles] returns has exactly [height] rows of [width]
    cells, holds each of its tiles in the cell whose coordinates the
    tile stores, and holds input tiles only. *)
Theorem X10_sortTiles_invariant {Aux} (h : heap Aux)
    (tl : list (option ref)) (w hgt : Z) (g : list Row) :
  sortTiles h tl w hgt = Ok g ->
  shaped (Z.to_nat w) (Z.to_nat hgt) g
  /\ cells_match h g
  /\ forall r, r ∈ unsortTiles g -> Some r ∈ tl.
Proof.
  intros H. destruct (sortTiles_invariant h tl w hgt g H) as [Hs Hm].
  split; [done|]. split; [done|]. by apply (sortTiles_subset h tl w hgt).
Qed.

Lemma X10_sortTiles_invariant_witness :
  shaped (Z.to_nat 2) (Z.to_nat 2) (tiles two_by_two)
  /\ cells_match three_tiles (tiles two_by_two)
  /\ forall r, r ∈ unsortTiles (tiles two_by_two) ->
       Some r ∈ [Some 2%nat; Some 0%nat; Some 1%nat].
Proof.
  apply (X10_sortTiles_invariant three_tiles
           [Some 2%nat; Some 0%nat; Some 1%nat] 2 2 (tiles two_by_two)).
  reflexivity.
Defined.

(** X11. Sorting what [unsortTiles] lists gives the grid back: for a
    grid of [height] rows of [width] cells whose tiles store the
    coordinates of their cells, [sortTiles(unsortTiles(grid))] succeeds
    and returns an equal grid. *)
Theorem X11_sortTiles_unsortTiles {Aux} (h : heap Aux) (w hgt : Z)
    (g : list Row) :
  0 <= w < 2 ^ 32 ->
  shaped (Z.to_nat w) (Z.to_nat hgt) g -> plain g -> cells_match h g ->
  sortTiles h (map Some (unsortTiles g)) w hgt = Ok g.
Proof.
  intros Hw Hs Hp Hm.
  destruct (sortTiles_cells h w hgt (unsortTiles g) Hw
              (cells_match_inside h w hgt g Hs Hm)) as (g' & Hg' & Hs' & Hc).
  rewrite Hg'. f_equal.
  apply (grid_ext _ _ _ _ Hs' Hs (sortTiles_plain _ _ _ _ _ Hg') Hp).
  intros xi yi. rewrite Hc, placed_unsortTiles by done.
  by destruct (cell_at g xi yi).
Qed.

Lemma X11_sortTiles_unsortTiles_witness :
  sortTiles three_tiles (map Some (unsortTiles (tiles two_by_two))) 2 2
  = Ok (tiles two_by_two).
Proof.
  apply (X11_sortTiles_unsortTiles three_tiles 2 2 (tiles two_by_two)).
  - lia.
  - apply (grid_shaped_shaped two_by_two). reflexivity.
  - repeat constructor.
  - apply (tiles_valid_match three_tiles two_by_two); reflexivity.
Defined.

Lemma NoDup_coords_apart {Aux} (h : heap Aux) (rs1 rs2 : list ref) (r : ref) :
  NoDup (map (coords h) (rs1 ++ r :: rs2)) ->
  Forall (fun r' => apart h r' r) rs2.
Proof.
  rewrite map_app. cbn [map]. intros Hnd.
  apply NoDup_app in Hnd as (_ & _ & Hnd). apply NoDup_cons in Hnd as [Hr _].
  apply Forall_forall. intros r' Hr'. unfold apart.
  destruct (Z.eq_dec (x (deref h r')) (x (deref h r))) as [Ex|]; [|by left].
  destruct (Z.eq_dec (y (deref h r')) (y (deref h r))) as [Ey|]; [|by right].
  exfalso. apply Hr. apply list_elem_of_In, in_map_iff. exists r'.
  split; [|by apply list_elem_of_In]. unfold coords. by rewrite Ex, Ey.
Qed.

(** X12. When the tiles of the list are within the grid and store
    pairwise different coordinates, [sortTiles] loses none of them:
    [unsortTiles] of the result lists exactly the input tiles, each
    once. *)
Theorem X12_no_tile_lost {Aux} (h : heap Aux) (w hgt : Z) (rs : list ref) :
  0 <= w < 2 ^ 32 ->
  Forall (inside h w hgt) rs ->
  NoDup (map (coords h) rs) ->
  exists g,
    sortTiles h (map Some rs) w hgt = Ok g /\ unsortTiles g ≡ₚ rs.
Proof.
  intros Hw Hin Hnd.
  destruct (sortTiles_cells h w hgt rs Hw Hin) as (g & Hg & Hs & Hc).
  exists g. split; [done|].
  destruct (sortTiles_invariant h _ w hgt g Hg) as [_ Hm].
  apply NoDup_Permutation.
  - by apply (NoDup_unsortTiles h).
  - apply NoDup_ListNoDup. apply NoDup_ListNoDup in Hnd.
    by apply NoDup_map_inv in Hnd.
  - intros r. rewrite elem_of_unsortTiles. split.
    + intros (xi & yi & Hr). rewrite Hc in Hr.
      by apply placed_result in Hr as [Hr | [Hr _]].
    + intros Hr. pose proof Hr as (rs1 & rs2 & ->)%list_elem_of_split.
      rewrite Forall_forall in Hin. apply Hin, in_bounds_true in Hr as [Hx Hy].
      exists (Z.to_nat (x (deref h r))), (Z.to_nat (y (deref h r))).
      rewrite Hc. apply placed_last; [apply at_cell_own; lia|].
      eapply Forall_impl; [by apply (NoDup_coords_apart h rs1 rs2 r)|].
      intros r' Hr'. cbn beta in Hr'. apply apart_at_cell; (done || lia).
Qed.

Lemma X12_no_tile_lost_witness :
  exists g,
    sortTiles three_tiles (map Some [2; 0; 1]%nat) 2 2 = Ok g
    /\ unsortTiles g ≡ₚ [2; 0; 1]%nat.
Proof.
  apply (X12_no_tile_lost three_tiles 2 2 [2; 0; 1]%nat).
  - lia.
  - repeat constructor.
  - cbn [map]. repeat (apply NoDup_cons; split);
      [| | | apply NoDup_nil_2];
      intros H%list_elem_of_In; cbn in H; intuition discriminate.
Defined.

(** * Further properties of the tile accessors *)

Lemma arr_get_set_ne {T} (a : jsarray T) (i j : Z) (v : T) :
  i <> j -> arr_get (arr_set a i v) j = arr_get a j.
Proof.
  intros Hne. unfold arr_get, arr_set.
  destruct (Z.ltb_spec i 0) as [Hi|Hi], (Z.ltb_spec j 0) as [Hj|Hj];
    cbn [props elems find fst snd]; try done.
  - destruct (Z.eqb_spec i j); [lia | done].
  - by destruct (_ <? _)%nat.
  - assert (Hn : Z.to_nat i <> Z.to_nat j) by lia.
    destruct (Nat.ltb_spec (Z.to_nat i) (length (elems a))) as [Hlt|Hge];
      cbn [elems].
    + by rewrite list_lookup_insert_ne.
    + destruct (Nat.lt_ge_cases (Z.to_nat j) (length (elems a))) as [Hj'|Hj'].
      * by rewrite lookup_app_l.
      * rewrite (lookup_ge_None_2 (elems a)) by lia.
        rewrite lookup_app_r by lia.
        destruct (Nat.lt_ge_cases (Z.to_nat j) (Z.to_nat i)) as [Hji|Hji].
        -- rewrite lookup_app_l by (rewrite length_replicate; lia).
           rewrite lookup_replicate_2 by lia. done.
        -- rewrite lookup_ge_None_2; [done|].
           rewrite length_app, length_replicate. cbn [length]. lia.
Qed.

(** X13. After [setTileAt(x, y, tile)] on an existing row, [getTileAt]
    returns the tile at (x, y), whatever the column, and returns at
    every other position what it returned before. *)
Theorem X13_get_after_set {Aux} (s : Schematic) (x' y' : Z) (tile : ref)
    (h : heap Aux) :
  0 <= y' < Z.of_nat (length (tiles s)) ->
  exists s',
    fst (setTileAt s x' y' tile h) = Ok s'
    /\ getTileAt s' x' y' = Ok (Some tile)
    /\ forall x2 y2, x2 <> x' \/ y2 <> y' ->
         getTileAt s' x2 y2 = getTileAt s x2 y2.
Proof.
  intros Hy. unfold setTileAt.
  destruct (row_at (tiles s) y') as [row|] eqn:E.
  2: { apply row_at_None in E. lia. }
  eexists. split; [reflexivity|].
  pose proof E as [_ E']%row_at_Some.
  assert (Hlt : (Z.to_nat y' < length (tiles s))%nat) by lia.
  split.
  - unfold getTileAt. cbn [tiles].
    assert (Hr : row_at (<[Z.to_nat y' := arr_set row x' tile]> (tiles s)) y'
                 = Some (arr_set row x' tile)).
    { apply row_at_Some. split; [lia|]. by apply list_lookup_insert_eq. }
    by rewrite Hr, arr_get_set_eq.
  - intros x2 y2 Hne. unfold getTileAt. cbn [tiles]. unfold row_at.
    destruct (Z.ltb_spec y2 0); [done|].
    destruct (Z.eq_dec y2 y') as [->|Hy2].
    + rewrite list_lookup_insert_eq by done. unfold Row in *. rewrite E'.
      rewrite arr_get_set_ne; [done | lia].
    + rewrite list_lookup_insert_ne by lia. done.
Qed.

Lemma X13_get_after_set_witness :
  exists s',
    fst (setTileAt two_by_two (-1) 1 2%nat three_tiles) = Ok s'
    /\ getTileAt s' (-1) 1 = Ok (Some 2%nat)
    /\ forall x2 y2, x2 <> -1 \/ y2 <> 1 ->
         getTileAt s' x2 y2 = getTileAt two_by_two x2 y2.
Proof.
  apply (X13_get_after_set two_by_two (-1) 1 2%nat three_tiles).
  simpl. lia.
Defined.

(** X14. [setTileAt] at a position within the bounds, with a tile that
    is not yet in the grid, keeps the grid's shape and keeps every tile
    in the cell whose coordinates it stores. *)
Theorem X14_setTileAt_keeps_invariant {Aux} (s : Schematic) (x' y' : Z)
    (tile : ref) (h : heap Aux) :
  shaped (Z.to_nat (width s)) (Z.to_nat (height s)) (tiles s) ->
  cells_match h (tiles s) ->
  0 <= x' < width s -> 0 <= y' < height s ->
  tile ∉ unsortTiles (tiles s) ->
  exists s',
    setTileAt s x' y' tile h = (Ok s', update tile (set_pos x' y') h)
    /\ shaped (Z.to_nat (width s')) (Z.to_nat (height s')) (tiles s')
    /\ cells_match (update tile (set_pos x' y') h) (tiles s').
Proof. apply setTileAt_keeps_invariant. Qed.

Lemma X14_setTileAt_keeps_invariant_witness :
  exists s',
    setTileAt one_by_one 0 0 0%nat one_wall
    = (Ok s', update 0%nat (set_pos 0 0) one_wall)
    /\ shaped (Z.to_nat (width s')) (Z.to_nat (height s')) (tiles s')
    /\ cells_match (update 0%nat (set_pos 0 0) one_wall) (tiles s').
Proof.
  apply (X14_setTileAt_keeps_invariant one_by_one 0 0 0%nat one_wall).
  - apply (grid_shaped_shaped one_by_one). reflexivity.
  - apply (tiles_valid_match one_wall one_by_one); reflexivity.
  - simpl. lia.
  - simpl. lia.
  - intros H%list_elem_of_In. exact H.
Defined.

(** X15. On a schematic fresh from its constructor, [getTileAt] with a
    row inside the grid and a column outside [0, width) returns an empty
    result. *)
Theorem X15_get_outside_columns {Aux} (P : Platform Aux) (hgt w v : Z)
    (tgs : object) (lbs : json) (tl : list (option ref)) (h h' : heap Aux)
    (s : Schematic) (x' y' : Z) :
  new_Schematic P hgt w v tgs lbs tl h = Ok (s, h') ->
  0 <= y' < hgt -> x' < 0 \/ w <= x' ->
  getTileAt s x' y' = Ok None.
Proof.
  intros (_ & _ & _ & _ & _ & Hg & _)%new_Schematic_fields Hy Hx.
  destruct (sortTiles_invariant h tl w hgt _ Hg) as [Hs _].
  pose proof (sortTiles_plain h tl w hgt _ Hg) as Hp.
  unfold getTileAt. destruct (row_at (tiles s) y') as [row|] eqn:E.
  2: { apply row_at_None in E. destruct Hs as [Hl _]. nlia. }
  apply row_at_Some in E as [_ E]. f_equal.
  pose proof (shaped_lookup _ _ _ _ _ Hs E) as Hl.
  unfold plain in Hp. rewrite Forall_forall in Hp.
  pose proof (Hp row (list_elem_of_lookup_2 _ _ _ E)) as Hpr.
  unfold arr_get. rewrite Hpr. destruct (Z.ltb_spec x' 0); [done|].
  rewrite lookup_ge_None_2; [done | nlia].
Qed.

Lemma X15_get_outside_columns_witness :
  getTileAt two_by_two 2 1 = Ok None.
Proof.
  apply (X15_get_outside_columns reference 2 2 1 [("name", "demo")%string]
           (JArray []) [Some 0%nat; Some 1%nat; Some 2%nat]
           three_tiles (readConfigs reference two_by_two three_tiles)
           two_by_two 2 1).
  - reflexivity.
  - lia.
  - lia.
Defined.

(** * Further properties of [getBlockMap] and of the config hooks *)

(** X16. The ids [getBlockMap] hands out identify the block names: each
    id is a position in the name table, the name at that position is
    the name of the tile, and two tiles have the same id exactly when
    they have the same name. *)
Theorem X16_ids_identify_names {Aux} (h : heap Aux) (ts : list ref)
    (allNames : list string) (mapping : list (ref * Z)) :
  getBlockMap h ts = (allNames, mapping) ->
  forall e1 e2, e1 ∈ mapping -> e2 ∈ mapping ->
    0 <= snd e1 < Z.of_nat (length allNames)
    /\ block_at allNames (snd e1) = Some (name (deref h (fst e1)))
    /\ (snd e1 = snd e2
        <-> name (deref h (fst e1)) = name (deref h (fst e2))).
Proof.
  intros Hg e1 e2 H1 H2.
  destruct (getBlockMap_spec h ts) as (mapping' & Hg' & _ & Hidx).
  rewrite Hg in Hg'. injection Hg' as -> <-.
  rewrite Forall_forall in Hidx.
  pose proof (Hidx e1 H1) as I1. pose proof (Hidx e2 H2) as I2.
  pose proof (block_at_index _ _ _ I1) as [R1 B1].
  pose proof (block_at_index _ _ _ I2) as [R2 B2].
  split; [done|]. split; [done|]. split.
  - intros E. rewrite E in B1. congruence.
  - intros E. rewrite E in I1. congruence.
Qed.

Lemma X16_ids_identify_names_witness :
  0 <= snd (1%nat, 0) < Z.of_nat (length ["copper-wall"; "conveyor"]%string)
  /\ block_at ["copper-wall"; "conveyor"]%string (snd (1%nat, 0))
     = Some (name (deref three_tiles (fst (1%nat, 0))))
  /\ (snd (1%nat, 0) = snd (2%nat, 1)
      <-> name (deref three_tiles (fst (1%nat, 0)))
          = name (deref three_tiles (fst (2%nat, 1)))).
Proof.
  apply (X16_ids_identify_names three_tiles [0; 1; 2]%nat
           ["copper-wall"; "conveyor"]%string
           [(0%nat, 0); (1%nat, 0); (2%nat, 1)]).
  - reflexivity.
  - apply list_elem_of_In. simpl. tauto.
  - apply list_elem_of_In. simpl. tauto.
Defined.

(** X17. On a grid whose tiles store the coordinates of their cells,
    [readConfigs] and [writeConfigs] run the tile's hook exactly once on
    each tile of the grid and leave every other tile of the store as it
    was. *)
Theorem X17_hooks_run_once {Aux} (P : Platform Aux) (s : Schematic)
    (h : heap Aux) (r : ref) :
  cells_match h (tiles s) ->
  (r ∈ unsortTiles (tiles s) ->
     deref (readConfigs P s h) r = readConfig P (deref h r)
     /\ deref (writeConfigs P s h) r = writeConfig P (deref h r))
  /\ (r ∉ unsortTiles (tiles s) ->
        deref (readConfigs P s h) r = deref h r
        /\ deref (writeConfigs P s h) r = deref h r).
Proof.
  intros Hm. pose proof (NoDup_unsortTiles h _ Hm) as Hnd.
  unfold readConfigs, writeConfigs, for_each_tile. split; intros Hr.
  - by rewrite !fold_update_once.
  - by rewrite !fold_update_other.
Qed.

Lemma X17_hooks_run_once_witness :
  (1%nat ∈ unsortTiles (tiles two_by_two) ->
     deref (readConfigs reference two_by_two three_tiles) 1%nat
     = readConfig reference (deref three_tiles 1%nat)
     /\ deref (writeConfigs reference two_by_two three_tiles) 1%nat
        = writeConfig reference (deref three_tiles 1%nat))
  /\ (1%nat ∉ unsortTiles (tiles two_by_two) ->
        deref (readConfigs reference two_by_two three_tiles) 1%nat
        = deref three_tiles 1%nat
        /\ deref (writeConfigs reference two_by_two three_tiles) 1%nat
           = deref three_tiles 1%nat).
Proof.
  apply (X17_hooks_run_once reference two_by_two three_tiles 1%nat).
  apply (tiles_valid_match three_tiles two_by_two); reflexivity.
Defined.

(** * What a successful [read] guarantees *)

Lemma rotation_valid_inv (rot : Z) :
  existsb (Z.eqb rot) [0; 1; 2; 3] = true -> 0 <= rot <= 3.
Proof.
  cbn [existsb]. rewrite !orb_true_iff, !Z.eqb_eq. lia.
Qed.

(** The tiles the loop constructs: new addresses, a rotation among 0,
    1, 2, 3, a block name that names a block. *)
Lemma readTiles_valid {Aux} (P : Platform Aux) blocks (w hgt : Z) (n : nat)
    (data : cursor) (h h1 : heap Aux) tl :
  readTiles P blocks w hgt n data h = Ok (tl, h1) ->
  forall r, Some r ∈ tl ->
    (next h <= r < next h1)%nat
    /\ 0 <= rotation (deref h1 r) <= 3
    /\ no_block (Some (name (deref h1 r))) = false.
Proof.
  revert data h h1 tl. induction n as [|n IH]; intros data h h1 tl.
  - intros [= <- <-] r Hr. by apply elem_of_nil in Hr.
  - cbn [readTiles]. intros H.
    apply bind_Ok in H as ([[[[[id px] py] cfg] rot] d1] & _ & H).
    destruct (existsb (Z.eqb rot) [0; 1; 2; 3]) eqn:Erot; [|done].
    cbn [negb] in H. destruct (negb _); [done|].
    destruct (if no_block _ then _ else _) as [b|] eqn:Eb.
    + cbn [alloc] in H.
      apply bind_Ok in H as ([tl' h'] & Hr & H). injection H as <- <-.
      pose proof (readTiles_store _ _ _ _ _ _ _ _ _ Hr) as [Hn Hd].
      cbn [next deref] in Hn, Hd.
      intros r [[= ->]|Hin]%elem_of_cons.
      * split; [lia|]. rewrite Hd by lia. rewrite Nat.eqb_refl.
        cbn [rotation name]. split; [by apply rotation_valid_inv|].
        destruct (no_block (block_at blocks id)) eqn:Enb; [done|].
        by rewrite Eb in Enb.
      * destruct (IH _ _ _ _ Hr r Hin) as (Hrange & Hrest).
        cbn [next] in Hrange. split; [lia | done].
    + apply bind_Ok in H as ([tl' h'] & Hr & H). injection H as <- <-.
      intros r [[=]|Hin]%elem_of_cons. by apply (IH _ _ _ _ Hr).
Qed.

(** X18. A schematic that [read] returns has version 1, a width and a
    height between 0 and 128, and a grid of exactly [height] rows of
    [width] cells, with no more tiles than cells. *)
Theorem X18_decoded_shape {Aux} (P : Platform Aux) (input : list byte)
    (h h' : heap Aux) (s : Schematic) :
  read P input h = Ok (s, h') ->
  version s = 1
  /\ 0 <= width s <= 128 /\ 0 <= height s <= 128
  /\ shaped (Z.to_nat (width s)) (Z.to_nat (height s)) (tiles s)
  /\ Z.of_nat (length (unsortTiles (tiles s))) <= width s * height s.
Proof.
  intros H.
  apply read_Ok in H as (data & d0 & w & hgt & tgs & lbs & blocks & n & tl
                         & h1 & _ & Hp & _ & _ & Hs).
  apply read_preamble_size in Hp as [Hw Hh].
  apply new_Schematic_fields in Hs as (-> & -> & -> & _ & _ & Hg & _).
  destruct (sortTiles_invariant _ _ _ _ _ Hg) as [Hshape _].
  repeat split; try lia; try apply Hshape.
  pose proof (length_unsortTiles _ _ _ Hshape). nia.
Qed.

Lemma X18_decoded_shape_witness :
  exists s h',
    read reference (fst (write reference two_by_two three_tiles)) empty_heap
    = Ok (s, h')
    /\ version s = 1
    /\ 0 <= width s <= 128 /\ 0 <= height s <= 128
    /\ shaped (Z.to_nat (width s)) (Z.to_nat (height s)) (tiles s)
    /\ Z.of_nat (length (unsortTiles (tiles s))) <= width s * height s.
Proof.
  eexists _, _. split; [vm_compute; reflexivity|].
  eapply (X18_decoded_shape reference
            (fst (write reference two_by_two three_tiles)) empty_heap).
  vm_compute. reflexivity.
Defined.

(** X19. When [tile.readConfig()] leaves name, position and rotation of
    a tile as they are, every tile of a schematic that [read] returns
    sits in the cell whose coordinates it stores, has a rotation among
    0, 1, 2, 3, and a block name other than the empty text and
    ["air"]. *)
Theorem X19_decoded_tiles {Aux} (P : Platform Aux) (input : list byte)
    (h h' : heap Aux) (s : Schematic) :
  (forall t, name (readConfig P t) = name t /\ x (readConfig P t) = x t
             /\ y (readConfig P t) = y t
             /\ rotation (readConfig P t) = rotation t) ->
  read P input h = Ok (s, h') ->
  forall xi yi r, cell_at (tiles s) xi yi = Some r ->
    x (deref h' r) = Z.of_nat xi /\ y (deref h' r) = Z.of_nat yi
    /\ 0 <= rotation (deref h' r) <= 3
    /\ no_block (Some (name (deref h' r))) = false.
Proof.
  intros Hhook H xi yi r Hc.
  apply read_Ok in H as (data & d0 & w & hgt & tgs & lbs & blocks & n & tl
                         & h1 & _ & _ & _ & Ht & Hs).
  apply new_Schematic_fields in Hs as (_ & _ & _ & _ & _ & Hg & ->).
  destruct (sortTiles_invariant h1 tl w hgt _ Hg) as [_ Hm].
  pose proof (sortTiles_subset h1 tl w hgt _ Hg) as Hsub.
  assert (Hr : r ∈ unsortTiles (tiles s))
    by (apply elem_of_unsortTiles; by exists xi, yi).
  unfold readConfigs, for_each_tile.
  rewrite fold_update_once; [| by apply (NoDup_unsortTiles h1) | done].
  destruct (Hhook (deref h1 r)) as (-> & -> & -> & ->).
  apply Hm, at_cell_true in Hc as [Hx Hy].
  destruct (readTiles_valid _ _ _ _ _ _ _ _ _ Ht r (Hsub r Hr)) as (_ & Hrot & Hnb).
  done.
Qed.

Lemma X19_decoded_tiles_witness :
  exists s h',
    read reference (fst (write reference two_by_two three_tiles)) empty_heap
    = Ok (s, h')
    /\ forall xi yi r, cell_at (tiles s) xi yi = Some r ->
         x (deref h' r) = Z.of_nat xi /\ y (deref h' r) = Z.of_nat yi
         /\ 0 <= rotation (deref h' r) <= 3
         /\ no_block (Some (name (deref h' r))) = false.
Proof.
  eexists _, _. split; [vm_compute; reflexivity|].
  eapply (X19_decoded_tiles reference
            (fst (write reference two_by_two three_tiles)) empty_heap).
  - intros t. by repeat split.
  - vm_compute. reflexivity.
Defined.

(** X20. [read] builds its schematic from new tiles only and leaves the
    tiles that existed before the call as they were. *)
Theorem X20_decoded_tiles_new {Aux} (P : Platform Aux) (input : list byte)
    (h h' : heap Aux) (s : Schematic) :
  read P input h = Ok (s, h') ->
  (forall r, r ∈ unsortTiles (tiles s) -> (next h <= r)%nat)
  /\ (forall r, (r < next h)%nat -> deref h' r = deref h r).
Proof.
  intros H.
  apply read_Ok in H as (data & d0 & w & hgt & tgs & lbs & blocks & n & tl
                         & h1 & _ & _ & _ & Ht & Hs).
  apply new_Schematic_fields in Hs as (_ & _ & _ & _ & _ & Hg & ->).
  pose proof (sortTiles_subset h1 tl w hgt _ Hg) as Hsub.
  assert (Hnew : forall r, r ∈ unsortTiles (tiles s) -> (next h <= r)%nat).
  { intros r Hr.
    destruct (readTiles_valid _ _ _ _ _ _ _ _ _ Ht r (Hsub r Hr)) as (Hrange & _).
    lia. }
  split; [done|]. intros r Hr.
  unfold readConfigs, for_each_tile. rewrite fold_update_other.
  - by apply (readTiles_store _ _ _ _ _ _ _ _ _ Ht).
  - intros Hin%Hnew. lia.
Qed.

Lemma X20_decoded_tiles_new_witness :
  exists s h',
    read reference (fst (write reference two_by_two three_tiles)) three_tiles
    = Ok (s, h')
    /\ (forall r, r ∈ unsortTiles (tiles s) -> (next three_tiles <= r)%nat)
    /\ (forall r, (r < next three_tiles)%nat ->
          deref h' r = deref three_tiles r).
Proof.
  eexists _, _. split; [vm_compute; reflexivity|].
  eapply (X20_decoded_tiles_new reference
            (fst (write reference two_by_two three_tiles)) three_tiles).
  vm_compute. reflexivity.
Defined.

(** * Properties of [parseArgs] *)

Lemma obj_get_put_eq (o : object) (k v : string) :
  obj_get (obj_put o k v) k = Some v.
Proof.
  unfold obj_get. induction o as [|[k' v'] o IH]; cbn [obj_put find fst snd].
  - by rewrite String.eqb_refl.
  - destruct (String.eqb_spec k' k) as [->|Hne]; cbn [find fst snd].
    + by rewrite String.eqb_refl.
    + destruct (String.eqb_spec k' k); [done | apply IH].
Qed.

Lemma obj_get_put_ne (o : object) (k k2 v : string) :
  k <> k2 -> obj_get (obj_put o k v) k2 = obj_get o k2.
Proof.
  intros Hne. unfold obj_get.
  induction o as [|[k' v'] o IH]; cbn [obj_put find fst snd].
  - destruct (String.eqb_spec k k2); [done | done].
  - destruct (String.eqb_spec k' k) as [->|Hk]; cbn [find fst snd].
    + destruct (String.eqb_spec k k2); [done | done].
    + destruct (String.eqb_spec k' k2); [done | apply IH].
Qed.

Lemma obj_get_set_eq (o : object) (k v : string) :
  k <> "__proto__"%string -> obj_get (obj_set o k v) k = Some v.
Proof.
  intros Hk. unfold obj_set. destruct (String.eqb_spec k "__proto__"); [done|].
  apply obj_get_put_eq.
Qed.

(** An assignment removes no key. *)
Lemma obj_set_keeps (o : object) (k k2 v : string) :
  is_Some (obj_get o k2) -> is_Some (obj_get (obj_set o k v) k2).
Proof.
  intros Hs. unfold obj_set. destruct (String.eqb k "__proto__"); [done|].
  destruct (String.eqb_spec k k2) as [->|Hne].
  - rewrite obj_get_put_eq. by eexists.
  - by rewrite obj_get_put_ne.
Qed.

Lemma prefix_dash (a : string) :
  String.prefix "--" a = true -> String.prefix "-" a = true.
Proof.
  intros H. apply String.prefix_correct in H. apply String.prefix_correct.
  destruct a as [|c [|c2 a]]; cbn in *; try done.
  injection H as -> _. done.
Qed.

Lemma prefix_dash_not_proto (a : string) :
  String.prefix "-" a = true -> a <> "__proto__"%string.
Proof. intros H ->. discriminate. Qed.

(** The loop on arguments without a dash: each turn moves one to the
    main arguments. *)
Lemma parseArgs_loop_plain (turns : nat) (args : list string) (pa : object)
    (ma : list string) :
  Forall (fun a => plain_arg a = true) args ->
  parseArgs_loop turns args pa ma
  = if (length args <? turns)%nat then Parsed pa (ma ++ args)
    else TooManyArguments.
Proof.
  intros Hall. revert turns ma.
  induction Hall as [|a args Ha _ IH]; intros [|k] ma; cbn [parseArgs_loop length].
  - done.
  - by rewrite app_nil_r.
  - done.
  - unfold plain_arg in Ha. apply negb_true_iff in Ha.
    assert (Hdd : String.prefix "--" a = false).
    { destruct (String.prefix "--" a) eqn:E; [|done].
      apply prefix_dash in E. congruence. }
    rewrite Hdd, Ha, IH, <- app_assoc. cbn [app].
    by destruct (Nat.ltb_spec (length args) k), (Nat.ltb_spec (S (length args)) (S k));
      try lia.
Qed.

(** X21. On arguments none of which starts with a dash, [parseArgs]
    returns no parsed argument and all of them, in order, as main
    arguments when there are fewer than 1000; with 1000 or more it
    throws. *)
Theorem X21_parseArgs_plain (args : list string) :
  Forall (fun a => plain_arg a = true) args ->
  parseArgs args
  = if (length args <? 1000)%nat then Parsed [] args else TooManyArguments.
Proof. intros H. unfold parseArgs. by rewrite parseArgs_loop_plain. Qed.

Lemma X21_parseArgs_plain_witness :
  parseArgs ["node"; "msch.js"; "out"]%string
  = if (length ["node"; "msch.js"; "out"]%string <? 1000)%nat
    then Parsed [] ["node"; "msch.js"; "out"]%string else TooManyArguments.
Proof.
  apply (X21_parseArgs_plain ["node"; "msch.js"; "out"]%string).
  repeat constructor.
Defined.

(** What a finished loop added to its two accumulators. *)
Lemma parseArgs_loop_grows (turns : nat) (args : list string)
    (pa pa' : object) (ma ma' : list string) :
  parseArgs_loop turns args pa ma = Parsed pa' ma' ->
  (forall k, is_Some (obj_get pa k) -> is_Some (obj_get pa' k))
  /\ exists more, ma' = ma ++ more /\ sublist more args
       /\ Forall (fun a => plain_arg a = true) more.
Proof.
  revert args pa ma. induction turns as [|t IH]; intros args pa ma; [done|].
  destruct args as [|arg args]; cbn [parseArgs_loop].
  - intros [= <- <-]. split; [done|]. exists []. by rewrite app_nil_r.
  - assert (Hopt : forall key value rest,
              sublist rest args ->
              parseArgs_loop t rest (obj_set pa key value) ma = Parsed pa' ma' ->
              (forall k, is_Some (obj_get pa k) -> is_Some (obj_get pa' k))
              /\ exists more, ma' = ma ++ more /\ sublist more (arg :: args)
                   /\ Forall (fun a => plain_arg a = true) more).
    { intros key value rest Hrest H.
      apply IH in H as (Hk & more & -> & Hsub & Hpl).
      split; [intros k Hs; by apply Hk, obj_set_keeps|].
      exists more. split; [done|]. split; [|done].
      apply sublist_cons. by etrans. }
    assert (Htl : sublist (tl args) args).
    { destruct args; [done|]. by apply sublist_cons. }
    destruct (String.prefix "--" arg) eqn:Edd;
      [|destruct (String.prefix "-" arg) eqn:Ed].
    + destruct (next_is_dash args); by apply Hopt.
    + destruct (next_is_dash args); by apply Hopt.
    + intros H. apply IH in H as (Hk & more & -> & Hsub & Hpl).
      split; [done|]. exists (arg :: more). rewrite <- app_assoc.
      split; [done|]. split; [by apply sublist_skip|].
      constructor; [|done]. unfold plain_arg. by rewrite Ed.
Qed.

(** X22. The main arguments [parseArgs] returns are arguments of its
    input, in their order, and none of them starts with a dash. *)
Theorem X22_mainArgs_sound (args : list string) (pa : object)
    (ma : list string) :
  parseArgs args = Parsed pa ma ->
  sublist ma args /\ Forall (fun a => plain_arg a = true) ma.
Proof.
  unfold parseArgs. intros H.
  by apply parseArgs_loop_grows in H as (_ & more & -> & Hsub & Hpl).
Qed.

Lemma X22_mainArgs_sound_witness :
  sublist ["node"; "rest"]%string
          ["node"; "--output"; "x"; "rest"; "-w"]%string
  /\ Forall (fun a => plain_arg a = true) ["node"; "rest"]%string.
Proof.
  apply (X22_mainArgs_sound ["node"; "--output"; "x"; "rest"; "-w"]%string
           [("output", "x"); ("w", "null")]%string).
  reflexivity.
Defined.

(** An argument that starts with a dash is never taken as the value of
    the option before it: the loop reaches it as the current argument. *)
Lemma parseArgs_loop_reaches (d : string) (post : list string) :
  String.prefix "-" d = true ->
  forall (turns : nat) (pre : list string) (pa : object) (ma : list string),
  exists turns' pa' ma',
    parseArgs_loop turns (pre ++ d :: post) pa ma
    = parseArgs_loop turns' (d :: post) pa' ma'
    /\ forall k, is_Some (obj_get pa k) -> is_Some (obj_get pa' k).
Proof.
  intros Hd turns. induction turns as [|t IH]; intros pre pa ma.
  - exists O, pa, ma. by split.
  - destruct pre as [|arg pre].
    + exists (S t), pa, ma. by split.
    + cbn [app parseArgs_loop].
      assert (Hstep : forall pa1 ma1,
                (forall k, is_Some (obj_get pa k) -> is_Some (obj_get pa1 k)) ->
                forall pre1, exists turns' pa' ma',
                  parseArgs_loop t (pre1 ++ d :: post) pa1 ma1
                  = parseArgs_loop turns' (d :: post) pa' ma'
                  /\ forall k, is_Some (obj_get pa k) -> is_Some (obj_get pa' k)).
      { intros pa1 ma1 Hk pre1.
        destruct (IH pre1 pa1 ma1) as (t' & pa' & ma' & -> & Hk').
        exists t', pa', ma'. split; [done|]. intros k Hs. by apply Hk', Hk. }
      assert (Hval : forall key,
                next_is_dash (pre ++ d :: post) = false ->
                exists turns' pa' ma',
                  parseArgs_loop t (tl (pre ++ d :: post))
                    (obj_set pa key (next_or_null (pre ++ d :: post))) ma
                  = parseArgs_loop turns' (d :: post) pa' ma'
                  /\ forall k, is_Some (obj_get pa k) -> is_Some (obj_get pa' k)).
      { intros key En. destruct pre as [|a pre]; cbn [app next_is_dash] in En.
        - congruence.
        - cbn [app tl]. apply Hstep. intros k Hs. by apply obj_set_keeps. }
      destruct (String.prefix "--" arg); [|destruct (String.prefix "-" arg)].
      * destruct (next_is_dash (pre ++ d :: post)) eqn:En; [|by apply Hval].
        apply Hstep. intros k Hs. by apply obj_set_keeps.
      * destruct (next_is_dash (pre ++ d :: post)) eqn:En; [|by apply Hval].
        apply Hstep. intros k Hs. by apply obj_set_keeps.
      * by apply Hstep.
Qed.

(** X23. No option is dropped: after a successful [parseArgs], every
    argument that starts with a dash is a key of the parsed arguments,
    under its full text or under its name without the dashes (unless
    that name is ["__proto__"], which an object does not store). *)
Theorem X23_options_recorded (args : list string) (pa : object)
    (ma : list string) (arg : string) :
  parseArgs args = Parsed pa ma ->
  arg ∈ args -> String.prefix "-" arg = true ->
  option_name arg <> "__proto__"%string ->
  is_Some (obj_get pa arg) \/ is_Some (obj_get pa (option_name arg)).
Proof.
  unfold parseArgs. intros H (pre & post & ->)%list_elem_of_split Hd Hp.
  destruct (parseArgs_loop_reaches arg post Hd 1000 pre [] [])
    as (t & pa1 & ma1 & Hr & _).
  rewrite Hr in H. destruct t as [|t]; [done|]. cbn [parseArgs_loop] in H.
  pose proof (prefix_dash_not_proto arg Hd) as Hnp.
  unfold option_name in *.
  destruct (String.prefix "--" arg); [|rewrite Hd in H];
    destruct (next_is_dash post);
    apply parseArgs_loop_grows in H as [Hk _];
    [left | right | left | right]; apply Hk; rewrite obj_get_set_eq by done;
    by eexists.
Qed.

Lemma X23_options_recorded_witness :
  is_Some (obj_get [("--help", "null"); ("output", "x")]%string "--help")
  \/ is_Some (obj_get [("--help", "null"); ("output", "x")]%string
                (option_name "--help")).
Proof.
  apply (X23_options_recorded ["--help"; "--output"; "x"]%string
           [("--help", "null"); ("output", "x")]%string [] "--help"%string).
  - reflexivity.
  - apply list_elem_of_here.
  - reflexivity.
  - discriminate.
Defined.

(** X24. An option directly followed by another argument that starts
    with a dash is recorded under its full text, dashes included, not
    under its name: after a successful [parseArgs] that text is a key
    of the parsed arguments. *)
Theorem X24_option_before_option (pre post : list string) (flag d : string)
    (pa : object) (ma : list string) :
  parseArgs (pre ++ flag :: d :: post) = Parsed pa ma ->
  String.prefix "-" flag = true -> String.prefix "-" d = true ->
  is_Some (obj_get pa flag).
Proof.
  unfold parseArgs. intros H Hf Hd.
  destruct (parseArgs_loop_reaches flag (d :: post) Hf 1000 pre [] [])
    as (t & pa1 & ma1 & Hr & _).
  rewrite Hr in H. destruct t as [|t]; [done|]. cbn [parseArgs_loop] in H.
  pose proof (prefix_dash_not_proto flag Hf) as Hnp.
  cbn [next_is_dash] in H. rewrite Hd, Hf in H.
  assert (H' : parseArgs_loop t (d :: post) (obj_set pa1 flag "null") ma1
               = Parsed pa ma) by (by destruct (String.prefix "--" flag)).
  apply parseArgs_loop_grows in H' as [Hk _].
  apply Hk. rewrite obj_get_set_eq by done. by eexists.
Qed.

Lemma X24_option_before_option_witness :
  is_Some (obj_get [("--help", "null"); ("output", "x")]%string "--help").
Proof.
  apply (X24_option_before_option ["node"; "msch"]%string ["x"%string]
           "--help" "--output"
           [("--help", "null"); ("output", "x")]%string
           ["node"; "msch"]%string); reflexivity.
Defined.

(** X25. The last option of the command line gets its value: when the
    arguments end with an option and a value that does not start with a
    dash, a successful [parseArgs] has the value under the option's
    name; when they end with the option itself, it has ["null"]. *)
Theorem X25_last_option (pre : list string) (flag : string)
    (value : list string) (pa : object) (ma : list string) :
  parseArgs (pre ++ flag :: value) = Parsed pa ma ->
  String.prefix "-" flag = true ->
  (length value <= 1)%nat -> next_is_dash value = false ->
  option_name flag <> "__proto__"%string ->
  obj_get pa (option_name flag) = Some (next_or_null value).
Proof.
  unfold parseArgs. intros H Hf Hl Hv Hp.
  destruct (parseArgs_loop_reaches flag value Hf 1000 pre [] [])
    as (t & pa1 & ma1 & Hr & _).
  rewrite Hr in H. destruct t as [|t]; [done|]. cbn [parseArgs_loop] in H.
  rewrite Hv, Hf in H. unfold option_name in *.
  assert (Htl : tl value = []).
  { clear -Hl. destruct value as [|v [|]]; cbn [length tl] in *; done || lia. }
  rewrite Htl in H.
  destruct (String.prefix "--" flag); destruct t as [|t]; try done;
    cbn [parseArgs_loop] in H; injection H as <- <-; by apply obj_get_set_eq.
Qed.

Lemma X25_last_option_witness :
  obj_get [("--wall", "null"); ("output", "x.msch")]%string
          (option_name "--output")
  = Some (next_or_null ["x.msch"%string]).
Proof.
  apply (X25_last_option ["node"; "--wall"]%string "--output"
           ["x.msch"%string]
           [("--wall", "null"); ("output", "x.msch")]%string
           ["node"%string]).
  - reflexivity.
  - reflexivity.
  - simpl. lia.
  - reflexivity.
  - discriminate.
Defined.

(** * Properties of [toHexCodes] and [fromHexCodes] *)

Lemma hex_code_of_byte (b : byte) :
  hex_code (slice_last 2 ("00" ++ toUpperCase (toString16 (Z_of_byte b)))) = true.
Proof. destruct b; vm_compute; reflexivity. Qed.

Lemma parseInt16_of_byte (b : byte) :
  byte_of_number
    (parseInt16 (slice_last 2 ("00" ++ toUpperCase (toString16 (Z_of_byte b)))))
  = b.
Proof. destruct b; vm_compute; reflexivity. Qed.

Lemma hex_code_no_space (s : string) : hex_code s = true -> has_space s = false.
Proof.
  destruct s as [|a [|b [|]]]; try done. cbn [hex_code has_space].
  intros [Ha Hb]%andb_true_iff.
  assert (Hc : forall c, upper_hex c = true -> Ascii.eqb c " " = false).
  { intros c Hc. destruct (Ascii.eqb_spec c " ") as [->|]; [|done].
    by vm_compute in Hc. }
  by rewrite (Hc a Ha), (Hc b Hb).
Qed.

Lemma split_space_nonempty (s : string) : split_space s <> [].
Proof.
  induction s as [|c s IH]; cbn [split_space]; [done|].
  destruct (Ascii.eqb c " "); [done|]. by destruct (split_space s).
Qed.

Lemma split_space_field (s : string) :
  has_space s = false -> split_space s = [s].
Proof.
  induction s as [|c s IH]; cbn [split_space has_space]; [done|].
  intros [Hc Hs]%orb_false_iff. by rewrite Hc, IH.
Qed.

Lemma split_space_app (s rest : string) :
  has_space s = false ->
  split_space (s ++ String " " rest) = s :: split_space rest.
Proof.
  induction s as [|c s IH]; cbn [split_space has_space String.append].
  - done.
  - intros [Hc Hs]%orb_false_iff. by rewrite Hc, IH.
Qed.

Lemma split_join (codes : list string) :
  codes <> [] -> Forall (fun c => has_space c = false) codes ->
  split_space (join_space codes) = codes.
Proof.
  intros Hne Hall. unfold join_space.
  induction Hall as [|c codes Hc Hall IH]; [done|].
  destruct codes as [|c2 codes]; cbn [String.concat].
  - by apply split_space_field.
  - cbn [String.append]. rewrite split_space_app by done. f_equal.
    by apply IH.
Qed.

Lemma toHexCodes_codes (buf : list byte) :
  Forall (fun c => hex_code c = true) (toHexCodes buf).
Proof.
  unfold toHexCodes. apply Forall_map, Forall_true. intros b.
  apply hex_code_of_byte.
Qed.

(** X26. [toHexCodes] gives one code per byte, and every code is
    exactly two upper-case digits of radix 16. *)
Theorem X26_toHexCodes_shape (buf : list byte) :
  length (toHexCodes buf) = length buf
  /\ Forall (fun c => hex_code c = true) (toHexCodes buf).
Proof.
  split; [unfold toHexCodes; by rewrite length_map | apply toHexCodes_codes].
Qed.

(** X27. [fromHexCodes] reads back what [toHexCodes] wrote: the codes
    of a buffer that is not empty, joined by single spaces, give the
    buffer again. *)
Theorem X27_hex_round_trip (buf : list byte) :
  buf <> [] -> fromHexCodes (join_space (toHexCodes buf)) = buf.
Proof.
  intros Hne. unfold fromHexCodes. rewrite split_join.
  - unfold toHexCodes. rewrite map_map.
    induction buf as [|b buf IH]; [done|]. cbn [map].
    rewrite parseInt16_of_byte. f_equal.
    destruct buf; [done | by apply IH].
  - by destruct buf.
  - eapply Forall_impl; [apply toHexCodes_codes|]. apply hex_code_no_space.
Qed.

Lemma X27_hex_round_trip_witness :
  fromHexCodes (join_space (toHexCodes [x00; x0a; xff])) = [x00; x0a; xff].
Proof. apply (X27_hex_round_trip [x00; x0a; xff]). discriminate. Defined.

(** X28. [fromHexCodes] returns one byte for each field between
    spaces, empty fields included: one more byte than the text has
    spaces, so never an empty buffer. *)
Theorem X28_fromHexCodes_length (str : string) :
  length (fromHexCodes str) = S (count_spaces str).
Proof.
  unfold fromHexCodes. rewrite length_map.
  induction str as [|c s IH]; cbn [split_space count_spaces]; [done|].
  destruct (Ascii.eqb c " "); cbn [length]; [by rewrite IH|].
  pose proof (split_space_nonempty s).
  destruct (split_space s); [done|]. exact IH.
Qed.

Lemma parseArgs_loop_returns (turns : nat) (args : list string) (pa : object)
    (ma : list string) :
  (length args < turns)%nat ->
  exists pa' ma', parseArgs_loop turns args pa ma = Parsed pa' ma'.
Proof.
  revert args pa ma. induction turns as [|t IH]; intros args pa ma Hl; [lia|].
  destruct args as [|arg args]; cbn [parseArgs_loop]; [by eauto|].
  cbn [length] in Hl.
  assert (Htl : (length (tl args) < t)%nat) by (destruct args; cbn in *; lia).
  destruct (String.prefix "--" arg); [|destruct (String.prefix "-" arg)];
    try destruct (next_is_dash args); apply IH; done || lia.
Qed.

(** X29. [parseArgs] does not throw on fewer than 1000 arguments,
    whatever they are. *)
Theorem X29_parseArgs_returns (args : list string) :
  (length args < 1000)%nat ->
  exists pa ma, parseArgs args = Parsed pa ma.
Proof. apply parseArgs_loop_returns. Qed.

Lemma X29_parseArgs_returns_witness :
  exists pa ma, parseArgs ["node"; "--output"; "x"; "-w"]%string = Parsed pa ma.
Proof.
  apply (X29_parseArgs_returns ["node"; "--output"; "x"; "-w"]%string).
  simpl. lia.
Defined.

(** * Writing a schematic of another version *)

Lemma read_version_byte {Aux} (P : Platform Aux) (b : byte)
    (rest : list byte) (h : heap Aux) :
  to_signed 8 (Z_of_byte b) <> 1 ->
  read P (magic4 ++ b :: rest) h
  = Err (UnknownVersion (to_signed 8 (Z_of_byte b))).
Proof.
  intros Hb. unfold read.
  change (check_header headerBytes (magic4 ++ b :: rest)) with (@Ok cursor (b :: rest)).
  cbn [mbind res_bind]. rewrite readInt8_cons. cbn [mbind res_bind].
  by destruct (Z.eqb_spec (to_signed 8 (Z_of_byte b)) 1).
Qed.

(** X30. [write] does not check the version it writes: the bytes of a
    schematic whose version is a byte value other than 1 are refused by
    [read] with the unknown-version error, which shows the version as a
    signed number. *)
Theorem X30_write_other_version {Aux} (P : Platform Aux) (s : Schematic)
    (h h' : heap Aux) :
  0 <= version s <= 255 -> version s <> 1 ->
  read P (fst (write P s h)) h'
  = Err (UnknownVersion (to_signed 8 (version s))).
Proof.
  intros Hr Hv. unfold write. cbn [fst].
  change (flat_map writeUInt8 headerBytes) with magic4.
  change (writeUInt8 (version s)) with [byte_of_Z (version s / 256 ^ Z.of_nat 0)].
  change (256 ^ Z.of_nat 0) with 1. rewrite Z.div_1_r.
  change ([byte_of_Z (version s)] ++ ?r) with (byte_of_Z (version s) :: r).
  assert (Hz : Z_of_byte (byte_of_Z (version s)) = version s).
  { rewrite Z_of_byte_of_Z. apply Z.mod_small. lia. }
  rewrite <- Hz at 2. apply read_version_byte. rewrite Hz.
  unfold to_signed. change (2 ^ (8 - 1)) with 128. change (2 ^ 8) with 256.
  destruct (Z.ltb_spec (version s) 128); lia.
Qed.

Lemma X30_write_other_version_witness :
  read reference (fst (write reference version_two empty_heap)) empty_heap
  = Err (UnknownVersion (to_signed 8 (version version_two))).
Proof.
  apply (X30_write_other_version reference version_two empty_heap empty_heap).
  - simpl. lia.
  - discriminate.
Defined.
